(** * safary_camp: the sighting-probability table, the safety ratings
      and the cross-chain event listener, embedded from
      [src/animal_sighting.py], [src/safety_checker.py] and
      [src/script.py]. *)

From Stdlib Require Import ZArith Lia List Sorted Ascii String DecimalString.
From Stdlib Require Import DecimalPos DecimalZ.
From Stdlib Require Import Floats Uint63.
From stdpp Require Import base gmap sets list strings.

Local Open Scope string_scope.
Local Open Scope Z_scope.

Set Warnings "-register-all".

(* ===================================================================== *)
(** * animal_sighting.py *)
(* ===================================================================== *)

Module AnimalSighting.

(** ** Text helpers: [str.lower] and [str.strip]

    A character is a code point below 256 (ASCII and the Latin-1
    supplement), which is where [str.lower] and [str.isspace] act as
    written below. *)

Definition lower_char (c : ascii) : ascii :=
  let n := Z.of_nat (nat_of_ascii c) in
  if ((65 <=? n) && (n <=? 90)) ||
     ((192 <=? n) && (n <=? 222) && negb (n =? 215))
  then ascii_of_nat (Z.to_nat (n + 32))
  else c.

Fixpoint lower (s : string) : string :=
  match s with
  | EmptyString => EmptyString
  | String c s' => String (lower_char c) (lower s')
  end.

Definition isspace (c : ascii) : bool :=
  let n := Z.of_nat (nat_of_ascii c) in
  ((9 <=? n) && (n <=? 13)) || ((28 <=? n) && (n <=? 32)) ||
  (n =? 133) || (n =? 160).

Fixpoint lstrip (s : string) : string :=
  match s with
  | EmptyString => EmptyString
  | String c s' => if isspace c then lstrip s' else s
  end.

Fixpoint rstrip (s : string) : string :=
  match s with
  | EmptyString => EmptyString
  | String c s' =>
      match rstrip s' with
      | EmptyString => if isspace c then EmptyString else String c EmptyString
      | r => String c r
      end
  end.

Definition strip (s : string) : string := rstrip (lstrip s).

(** ** The enumeration and the two tables *)

Inductive WeatherCondition := SUNNY | RAINY | CLOUDY | NIGHT.

Definition value (w : WeatherCondition) : string :=
  match w with
  | SUNNY => "sunny"
  | RAINY => "rainy"
  | CLOUDY => "cloudy"
  | NIGHT => "night"
  end.

(** The [weather] argument is [Union[WeatherCondition, str]]. *)
Inductive weather_arg :=
| Member (w : WeatherCondition)
| Text (s : string).

(** [WeatherCondition(weather)]: the member itself, or the member whose
    value is the text; [None] stands for the [ValueError]. *)
Definition WeatherCondition_of (a : weather_arg) : option WeatherCondition :=
  match a with
  | Member w => Some w
  | Text s =>
      if String.eqb s (value SUNNY) then Some SUNNY
      else if String.eqb s (value RAINY) then Some RAINY
      else if String.eqb s (value CLOUDY) then Some CLOUDY
      else if String.eqb s (value NIGHT) then Some NIGHT
      else None
  end.

Definition BASE_PROBABILITIES : gmap string Z :=
  list_to_map
    [("lion", 30); ("elephant", 60); ("giraffe", 55); ("zebra", 70);
     ("rhino", 15); ("leopard", 10); ("hippo", 40)].

(** Every member of the enumeration is a key of [WEATHER_MODIFIERS]. *)
Definition WEATHER_MODIFIERS (w : WeatherCondition) : gmap string Z :=
  match w with
  | SUNNY =>
      list_to_map [("lion", -5); ("elephant", 5); ("hippo", 15); ("leopard", -8)]
  | RAINY =>
      list_to_map [("lion", -10); ("elephant", -5); ("rhino", 10);
                   ("hippo", -10); ("zebra", -15)]
  | CLOUDY =>
      list_to_map [("lion", 15); ("rhino", 5); ("leopard", 5)]
  | NIGHT =>
      list_to_map [("lion", 25); ("rhino", 15); ("leopard", 30);
                   ("elephant", -20); ("giraffe", -20)]
  end.

(** ** [get_sighting_probability] *)

Definition animal_key_of (animal_name : string) : string :=
  strip (lower animal_name).

(** [modifier]: 0 unless the weather names a member, then that member's
    entry for the animal, 0 when it has none. *)
Definition modifier_of (animal_key : string) (weather : weather_arg) : Z :=
  match WeatherCondition_of weather with
  | Some weather_condition =>
      default 0 (WEATHER_MODIFIERS weather_condition !! animal_key)
  | None => 0
  end.

(** [max(0, min(100, final_prob))] *)
Definition clamp (final_prob : Z) : Z := Z.max 0 (Z.min 100 final_prob).

(** [clamped_prob / 100.0]: the integer is converted to a binary64 float
    and divided. *)
Definition percent_to_float (clamped_prob : Z) : float :=
  PrimFloat.div (PrimFloat.of_uint63 (Uint63.of_Z clamped_prob)) 100%float.

Definition get_sighting_probability (animal_name : string)
    (weather : weather_arg) : float :=
  let animal_key := animal_key_of animal_name in
  match BASE_PROBABILITIES !! animal_key with
  | None => 0%float
  | Some base_prob =>
      let modifier := modifier_of animal_key weather in
      let final_prob := base_prob + modifier in
      percent_to_float (clamp final_prob)
  end.

(** The closed interval [[0.0, 1.0]] on floats. *)
Definition in_unit_interval (x : float) : bool :=
  PrimFloat.leb 0%float x && PrimFloat.leb x 1%float.

(** The percentages a clamped probability can take. *)
Definition percents : list Z := List.map Z.of_nat (seq 0 101).

End AnimalSighting.

(* ===================================================================== *)
(** * script.py: the cross-chain event listener *)
(* ===================================================================== *)

Module Bridge.

(** ** Configuration *)

Definition SOURCE_CHAIN_ID : Z := 11155111.
Definition DESTINATION_CHAIN_ID : Z := 80001.
Definition BLOCK_PROCESSING_CHUNK_SIZE : Z := 100.

(** The two settings the loop and the handler read: the chunk width
    ([BLOCK_PROCESSING_CHUNK_SIZE]) and the [chain_id] of the destination
    connector handed to [CrossChainEventHandler]. *)
Record Config := mkConfig {
  chunk_size : Z;
  destination_chain_id : Z
}.

Definition default_config : Config :=
  mkConfig BLOCK_PROCESSING_CHUNK_SIZE DESTINATION_CHAIN_ID.

(** ** Exceptions

    The classes the handlers of the source tell apart.  [IOError] is
    [OSError]; the builtin [ConnectionError] and the [requests] exceptions
    are subclasses of it. *)

Inductive exn :=
| ConnectionError
| IOError
| ReadTimeout
| BlockNotFound
| JSONDecodeError
| KeyError (key : string)
| TypeError
| ValueError
| OtherException (msg : string).

Definition is_IOError (e : exn) : bool :=
  match e with
  | ConnectionError | IOError | ReadTimeout => true
  | _ => false
  end.

Definition is_ConnectionError (e : exn) : bool :=
  match e with
  | ConnectionError => true
  | _ => false
  end.

Inductive result (A : Type) :=
| Ok (a : A)
| Raise (e : exn).
Arguments Ok {A} a.
Arguments Raise {A} e.

(** ** Events

    An event log is a dict; a field is [None] when the key is absent, so
    that subscripting it raises [KeyError].  [transactionHash] holds the
    text that [.hex()] returns. *)

Record EventArgs := mkArgs {
  destinationChainId : option Z;
  recipient : option string;
  amount : option Z;
  nonce : option Z
}.

Record Event := mkEvent {
  transactionHash : option string;
  args : option EventArgs
}.

(** ** Decoded JSON *)

(** A decoded JSON document (numbers with a fraction are left out). *)
Inductive json :=
| JNull
| JBool (b : bool)
| JInt (n : Z)
| JStr (s : string)
| JList (items : list json)
| JDict (fields : list (string * json)).

Fixpoint dict_get (key : string) (fields : list (string * json))
    : option json :=
  match fields with
  | [] => None
  | (k, v) :: rest => if String.eqb k key then Some v else dict_get key rest
  end.

(** ** The log: one record per [logger] call, in call order *)

(** [InfoStateLoaded] is the record of a loaded state whose value under
    the key is an integer, [InfoStateLoadedValue] the same record for any
    other value. *)

Inductive LogRecord :=
| DebugFetching (from_block to_block : Z)
| InfoFound (count : nat) (from_block to_block : Z)
| WarnRangeNotFound (from_block to_block : Z)
| ErrorRpcTimeout (from_block to_block : Z)
| ErrorFetchUnexpected (e : exn)
| WarnAlreadyProcessed (tx_hash_hex : string)
| InfoProcessingEvent (tx_hash_hex : string)
| DebugWrongChain (chain : Z)
| InfoActionRequired (chain : Z)
| InfoMintUnlock (amount : Z) (recipient : string)
| InfoSourceTx (tx_hash_hex : string) (nonce : Z)
| ErrorFailedEvent (event : Event) (e : exn)
| InfoStateLoaded (block : Z)
| InfoStateLoadedValue (value : json)
| WarnStateFileNotFound
| ErrorLoadingState (e : exn)
| ErrorSaveState (e : exn)
| DebugNoNewBlocks (latest_block : Z)
| InfoProcessingBlocks (start_block latest_block : Z)
| ErrorConnection (e : exn)
| ErrorCycle (e : exn).

(** ** The mutable state

    [processed_events] is the handler's in-memory set,
    [last_processed_block] the integer held by [self.state], and
    [state_file] the contents of [STATE_FILE_PATH] on disk ([None]: the
    file does not exist). *)

Record World := mkWorld {
  log : list LogRecord;
  processed_events : gset string;
  last_processed_block : Z;
  state_file : option string
}.

Definition initial_world (file : option string) : World :=
  mkWorld [] ∅ 0 file.

(** ** A state monad with exceptions; effects made before a [raise]
    stay. *)

Definition M (A : Type) : Type := World -> result A * World.

Definition ret {A} (a : A) : M A := fun w => (Ok a, w).

Definition raise {A} (e : exn) : M A := fun w => (Raise e, w).

Definition bind {A B} (m : M A) (k : A -> M B) : M B :=
  fun w =>
    match m w with
    | (Ok a, w') => k a w'
    | (Raise e, w') => (Raise e, w')
    end.

Definition try_except {A} (m : M A) (handler : exn -> M A) : M A :=
  fun w =>
    match m w with
    | (Ok a, w') => (Ok a, w')
    | (Raise e, w') => handler e w'
    end.

Declare Scope py_scope.
Delimit Scope py_scope with py.
Notation "'let*' x ':=' m 'in' k" := (bind m (fun x => k))
  (at level 10, x name, m at level 100, k at level 200) : py_scope.
Notation "m1 ;; m2" := (bind m1 (fun _ => m2))
  (at level 100, m2 at level 200, right associativity) : py_scope.
Local Open Scope py_scope.

Definition exec {A} (m : M A) (w : World) : World := snd (m w).

Definition lift {A} (r : result A) : M A := fun w => (r, w).

Definition logger (r : LogRecord) : M unit :=
  fun w => (Ok tt, mkWorld (log w ++ [r]) (processed_events w)
                     (last_processed_block w) (state_file w)).

(** [d[key]] on a dict field. *)
Definition getitem {A} (key : string) (field : option A) : M A :=
  match field with
  | Some v => ret v
  | None => raise (KeyError key)
  end.

Definition add_processed (tx_hash_hex : string) : M unit :=
  fun w => (Ok tt, mkWorld (log w) ({[ tx_hash_hex ]} ∪ processed_events w)
                     (last_processed_block w) (state_file w)).

Definition set_last_processed_block (b : Z) : M unit :=
  fun w => (Ok tt, mkWorld (log w) (processed_events w) b (state_file w)).

Definition set_state_file (f : option string) : M unit :=
  fun w => (Ok tt, mkWorld (log w) (processed_events w)
                     (last_processed_block w) f).

Fixpoint for_each {A} (l : list A) (body : A -> M unit) : M unit :=
  match l with
  | [] => ret tt
  | x :: l' => body x ;; for_each l' body
  end.

(** ** [range(start, stop, step)] *)

Fixpoint range_from (n : nat) (start step : Z) : list Z :=
  match n with
  | O => []
  | S n' => start :: range_from n' (start + step) step
  end.

Definition range_len (start stop step : Z) : Z :=
  if 0 <? step then
    if start <? stop then (stop - start - 1) / step + 1 else 0
  else
    if stop <? start then (start - stop - 1) / (- step) + 1 else 0.

Definition py_range (start stop step : Z) : result (list Z) :=
  if step =? 0 then Raise ValueError
  else Ok (range_from (Z.to_nat (range_len start stop step)) start step).

(** ** [BridgeContractHandler.fetch_events]

    [entries from_block to_block] is what creating the filter and
    [get_all_entries] do for that window: the decoded logs or the
    exception. *)

Definition fetch_events (entries : Z -> Z -> result (list Event))
    (from_block to_block : Z) : M (list Event) :=
  logger (DebugFetching from_block to_block) ;;
  match entries from_block to_block with
  | Ok events =>
      (match events with
       | [] => ret tt
       | _ => logger (InfoFound (length events) from_block to_block)
       end) ;;
      ret events
  | Raise BlockNotFound =>
      logger (WarnRangeNotFound from_block to_block) ;; ret []
  | Raise ReadTimeout =>
      logger (ErrorRpcTimeout from_block to_block) ;; ret []
  | Raise e =>
      logger (ErrorFetchUnexpected e) ;; ret []
  end.

(** ** [CrossChainEventHandler.process_event] *)

Definition process_event_body (chain_id : Z) (event : Event) : M unit :=
  let* tx_hash_hex := getitem "transactionHash" (transactionHash event) in
  fun w =>
    if decide (tx_hash_hex ∈ processed_events w) then
      logger (WarnAlreadyProcessed tx_hash_hex) w
    else
      (let* args := getitem "args" (args event) in
       logger (InfoProcessingEvent tx_hash_hex) ;;
       let* dest := getitem "destinationChainId" (destinationChainId args) in
       if negb (dest =? chain_id) then
         logger (DebugWrongChain dest)
       else
         logger (InfoActionRequired chain_id) ;;
         let* amt := getitem "amount" (amount args) in
         let* rcp := getitem "recipient" (recipient args) in
         logger (InfoMintUnlock amt rcp) ;;
         let* nce := getitem "nonce" (nonce args) in
         logger (InfoSourceTx tx_hash_hex nce) ;;
         add_processed tx_hash_hex) w.

Definition process_event (chain_id : Z) (event : Event) : M unit :=
  try_except (process_event_body chain_id event)
    (fun e => logger (ErrorFailedEvent event e)).

(** ** [EventListener._save_state]

    [json.dump] of [{"last_processed_block": block}] with the default
    separators. *)

Definition dquote : string := String "034"%char EmptyString.

Definition json_dumps (block : Z) : string :=
  ("{" ++ dquote ++ "last_processed_block" ++ dquote ++ ": "
       ++ NilZero.string_of_int (Z.to_int block) ++ "}")%string.

(** What the disk does during one save: nothing wrong, [open] raising
    [IOError] (the file is untouched), or the write raising [IOError]
    after [written] characters reached the file that [open] had
    truncated. *)
Inductive disk_fault :=
| DiskOk
| OpenFails
| WriteFails (written : nat).

Definition _save_state (fault : disk_fault) : M unit :=
  try_except
    (fun w =>
       let text := json_dumps (last_processed_block w) in
       match fault with
       | OpenFails => raise IOError w
       | WriteFails written =>
           (set_state_file (Some EmptyString) ;;
            set_state_file (Some (substring 0 written text)) ;;
            raise IOError) w
       | DiskOk =>
           (set_state_file (Some EmptyString) ;;
            set_state_file (Some text)) w
       end)
    (fun e => if is_IOError e then logger (ErrorSaveState e) else raise e).

(** The contents of the state file when the process is stopped after
    [steps] disk operations of a save of [block]: none yet, the truncation
    by [open(..., 'w')], then the characters of the record one by one. *)
Definition disk_after (steps : nat) (old : option string) (block : Z)
    : option string :=
  match steps with
  | O => old
  | S written => Some (substring 0 written (json_dumps block))
  end.

(** ** [EventListener._run_cycle] *)

(** What the outside world answers during one cycle: the chain height,
    the logs of each window, and the behaviour of the disk at the save
    that follows the window ending at a given block. *)
Record CycleEnv := mkCycleEnv {
  block_number : result Z;
  entries : Z -> Z -> result (list Event);
  disk : Z -> disk_fault
}.

(** The body of the [for block_num in range(...)] loop. *)
Definition process_chunk (cfg : Config) (env : CycleEnv) (latest_block : Z)
    (block_num : Z) : M unit :=
  let from_block := block_num in
  let to_block := Z.min (block_num + chunk_size cfg - 1) latest_block in
  let* events := fetch_events (entries env) from_block to_block in
  for_each events (process_event (destination_chain_id cfg)) ;;
  set_last_processed_block to_block ;;
  _save_state (disk env to_block).

Definition run_cycle_body (cfg : Config) (env : CycleEnv) : M unit :=
  let* latest_block := lift (block_number env) in
  fun w =>
    let start_block := last_processed_block w + 1 in
    if start_block >? latest_block then
      logger (DebugNoNewBlocks latest_block) w
    else
      (logger (InfoProcessingBlocks start_block latest_block) ;;
       let* blocks :=
         lift (py_range start_block (latest_block + 1) (chunk_size cfg)) in
       for_each blocks (process_chunk cfg env latest_block)) w.

Definition _run_cycle (cfg : Config) (env : CycleEnv) : M unit :=
  try_except (run_cycle_body cfg env)
    (fun e =>
       if is_ConnectionError e then logger (ErrorConnection e)
       else logger (ErrorCycle e)).

(** [run]: the cycles executed until the stop signal, one environment
    per cycle, then the final save. *)
Definition run_cycles (cfg : Config) (envs : list CycleEnv) : M unit :=
  for_each envs (_run_cycle cfg).

Definition run (cfg : Config) (envs : list CycleEnv) (final : disk_fault)
    : M unit :=
  run_cycles cfg envs ;; _save_state final.

(** The windows of one cycle, as the loop computes them. *)
Definition window (W latest_block block_num : Z) : Z * Z :=
  (block_num, Z.min (block_num + W - 1) latest_block).

Definition windows (W from_block to_block : Z) : list (Z * Z) :=
  if from_block >? to_block then []
  else
    match py_range from_block (to_block + 1) W with
    | Ok blocks => List.map (window W to_block) blocks
    | Raise _ => []
    end.

(** The windows asked of the chain, read off the log. *)
Definition fetched (l : list LogRecord) : list (Z * Z) :=
  flat_map (fun r => match r with
                     | DebugFetching a b => [(a, b)]
                     | _ => []
                     end) l.

(** ** [EventListener._load_state] *)

(** How [_load_state] ends when it returns: with the integer of the file,
    with a seed, or with [self.state] holding a document that has the key
    but is not the one-integer record: it has other keys besides, or the
    value under the key is no integer.  [World] has no place for the
    other keys or for such a value, so [LoadedOther] carries the document
    that [self.state] then is.  The fields of a decoded dict have
    distinct keys. *)
Inductive loaded :=
| LoadedBlock (block : Z)
| SeededBlock (block : Z)
| LoadedOther (doc : json).

(** What the outside world answers during the load: whether [open]
    raises [IOError], and the result of the k-th height query. *)
Record LoadEnv := mkLoadEnv {
  open_fails : bool;
  heights : nat -> result Z
}.

Section LoadState.

(** [json.load] on the text of the file: the document or the exception
    ([JSONDecodeError] for text that is not JSON). *)
Variable json_load : string -> result json.

Definition seed (height : result Z) : M loaded :=
  let* latest := lift height in
  set_last_processed_block (latest - 1) ;;
  ret (SeededBlock (latest - 1)).

(** The [except (json.JSONDecodeError, IOError)] clause; [query] is the
    number of height queries already made. *)
Definition load_handler (env : LoadEnv) (query : nat) (e : exn) : M loaded :=
  match e with
  | JSONDecodeError | ConnectionError | IOError | ReadTimeout =>
      logger (ErrorLoadingState e) ;; seed (heights env query)
  | _ => raise e
  end.

(** The [try] covers both branches of the [if]; it is written once per
    branch here because the handler's height query is the first one
    after the file branch and the second one after the other. *)
Definition _load_state (env : LoadEnv) : M loaded :=
  fun w =>
    match state_file w with
    | Some text =>
        try_except
          (if open_fails env then raise IOError
           else
             let* doc := lift (json_load text) in
             match doc with
             | JDict fields =>
                 match dict_get "last_processed_block" fields, fields with
                 | None, _ => raise (KeyError "last_processed_block")
                 | Some (JInt block), [_] =>
                     set_last_processed_block block ;;
                     logger (InfoStateLoaded block) ;;
                     ret (LoadedBlock block)
                 | Some (JInt block), _ =>
                     set_last_processed_block block ;;
                     logger (InfoStateLoaded block) ;;
                     ret (LoadedOther doc)
                 | Some value, _ =>
                     logger (InfoStateLoadedValue value) ;;
                     ret (LoadedOther doc)
                 end
             | _ => raise TypeError
             end)
          (load_handler env 0) w
    | None =>
        try_except
          (logger WarnStateFileNotFound ;; seed (heights env 0))
          (load_handler env 1) w
    end.

End LoadState.

(** ** The outcome of one handled event, read off what it logged last *)

Inductive Outcome := Dispatched | SkippedWrongChain | SkippedDuplicate | Failed.

Definition outcome_of_record (r : LogRecord) : option Outcome :=
  match r with
  | InfoSourceTx _ _ => Some Dispatched
  | DebugWrongChain _ => Some SkippedWrongChain
  | WarnAlreadyProcessed _ => Some SkippedDuplicate
  | ErrorFailedEvent _ _ => Some Failed
  | _ => None
  end.

Definition Handle (chain_id : Z) (event : Event) (w : World)
    : option Outcome * World :=
  let w' := exec (process_event chain_id event) w in
  (List.last (List.map outcome_of_record (log w')) None, w').

(** The calls to the action sink: the simulated action is complete once
    its source-transaction line is logged. *)
Definition is_action (r : LogRecord) : bool :=
  match r with
  | InfoActionRequired _ | InfoMintUnlock _ _ | InfoSourceTx _ _ => true
  | _ => false
  end.

Definition dispatched (l : list LogRecord) : list string :=
  flat_map (fun r => match r with
                     | InfoSourceTx tx _ => [tx]
                     | _ => []
                     end) l.

End Bridge.


(** * script.py: the connector *)

Module Connector.
Import Bridge.
Local Open Scope list_scope.

(** ** [BlockchainConnector] *)

(** A [Web3] object, by the endpoint its provider was built for. *)
Record Web3 := mkWeb3 {
  endpoint : string
}.

Inductive ConnectorLog :=
| InfoConnected (chain_id : Z) (rpc_url : string)
| ErrorConnecting (rpc_url : string) (e : exn)
| WarnDisconnected.

(** The fields of a connector, and the log its methods write. *)
Record BlockchainConnector := mkConnector {
  rpc_url : string;
  chain_id : Z;
  web3 : option Web3;
  connector_log : list ConnectorLog
}.

(** What the outside world does during one [connect]: whether building
    the [Web3] object raises, and the answer of [is_connected()]. *)
Record ConnectEnv := mkConnectEnv {
  provider : result unit;
  is_connected : bool
}.

Definition connect_failed (e : exn) (c : BlockchainConnector)
    : result unit * BlockchainConnector :=
  (Raise e,
   mkConnector (rpc_url c) (chain_id c) None
     (connector_log c ++ [ErrorConnecting (rpc_url c) e])).

Definition connect (env : ConnectEnv) (c : BlockchainConnector)
    : result unit * BlockchainConnector :=
  match provider env with
  | Raise e => connect_failed e c
  | Ok _ =>
      let c1 := mkConnector (rpc_url c) (chain_id c)
                  (Some (mkWeb3 (rpc_url c))) (connector_log c) in
      if negb (is_connected env) then connect_failed ConnectionError c1
      else
        (Ok tt,
         mkConnector (rpc_url c1) (chain_id c1) (web3 c1)
           (connector_log c1 ++ [InfoConnected (chain_id c1) (rpc_url c1)]))
  end.

(** [__init__] *)
Definition new_connector (env : ConnectEnv) (url : string) (chain : Z)
    : result unit * BlockchainConnector :=
  connect env (mkConnector url chain None []).

(** What the outside world does during one [get_latest_block_number]:
    the answer of [is_connected()] in the guard (asked only when there is
    a [Web3] object), what a reconnection meets, and what reading
    [eth.block_number] gives. *)
Record HeightEnv := mkHeightEnv {
  still_connected : bool;
  reconnect : ConnectEnv;
  eth_block_number : result Z
}.

Definition get_latest_block_number (env : HeightEnv) (c : BlockchainConnector)
    : result Z * BlockchainConnector :=
  if match web3 c with
     | None => true
     | Some _ => negb (still_connected env)
     end
  then
    let c1 := mkConnector (rpc_url c) (chain_id c) (web3 c)
                (connector_log c ++ [WarnDisconnected]) in
    match connect (reconnect env) c1 with
    | (Raise e, c2) => (Raise e, c2)
    | (Ok _, c2) => (eth_block_number env, c2)
    end
  else (eth_block_number env, c).

(** A contract object, by its checksummed address. *)
Record Contract := mkContract {
  contract_address : string
}.

Section GetContractInstance.

(** [web3.to_checksum_address]: the checksummed address, or the
    exception for text that is no address. *)
Variable to_checksum_address : string -> result string.

Definition get_contract_instance (c : BlockchainConnector) (address : string)
    : result Contract :=
  match web3 c with
  | None => Raise ConnectionError
  | Some _ =>
      match to_checksum_address address with
      | Ok checksum_address => Ok (mkContract checksum_address)
      | Raise e => Raise e
      end
  end.

End GetContractInstance.

(** The cycle environment in which the height is what the source
    connector answers. *)
Definition cycle_env_of (henv : HeightEnv) (c : BlockchainConnector)
    (entries : Z -> Z -> result (list Event)) (disk : Z -> disk_fault)
    : CycleEnv :=
  mkCycleEnv (fst (get_latest_block_number henv c)) entries disk.

(** An endpoint that does not answer. *)
Definition dead_endpoint : ConnectEnv := mkConnectEnv (Ok tt) false.

End Connector.

Module BridgeViews.
Import Bridge.
Local Open Scope list_scope.

(** ** Definitions used to state the properties of the listener *)

Definition emit (rs : list LogRecord) (w : World) : World :=
  mkWorld (log w ++ rs) (processed_events w) (last_processed_block w)
    (state_file w).

Definition remember (tx : string) (w : World) : World :=
  mkWorld (log w) ({[ tx ]} ∪ processed_events w) (last_processed_block w)
    (state_file w).

Definition outcomes (l : list LogRecord) : list Outcome :=
  omap outcome_of_record l.

(** The dedup invariant: completed actions are pairwise distinct
    transactions, all of them in the cache. *)
Definition dedup_inv (w : World) : Prop :=
  NoDup (dispatched (log w)) /\
  forall tx, In tx (dispatched (log w)) -> tx ∈ processed_events w.

Inductive handled (chain : Z) (ev : Event) (w : World)
    : Outcome -> World -> Prop :=
| handled_duplicate tx :
    transactionHash ev = Some tx ->
    tx ∈ processed_events w ->
    handled chain ev w SkippedDuplicate (emit [WarnAlreadyProcessed tx] w)
| handled_wrong_chain tx a c :
    transactionHash ev = Some tx ->
    tx ∉ processed_events w ->
    args ev = Some a ->
    destinationChainId a = Some c ->
    c <> chain ->
    handled chain ev w SkippedWrongChain
      (emit [InfoProcessingEvent tx; DebugWrongChain c] w)
| handled_dispatch tx a amt rcp nce :
    transactionHash ev = Some tx ->
    tx ∉ processed_events w ->
    args ev = Some a ->
    destinationChainId a = Some chain ->
    amount a = Some amt ->
    recipient a = Some rcp ->
    nonce a = Some nce ->
    handled chain ev w Dispatched
      (remember tx
         (emit [InfoProcessingEvent tx; InfoActionRequired chain;
                InfoMintUnlock amt rcp; InfoSourceTx tx nce] w))
| handled_failed e rs :
    process_event_body chain ev w = (Raise e, emit rs w) ->
    dispatched rs = [] ->
    outcomes rs = [] ->
    (forall tx, transactionHash ev = Some tx -> tx ∉ processed_events w) ->
    handled chain ev w Failed (emit (rs ++ [ErrorFailedEvent ev e]) w).

(** What one handled event may change. *)
Record handler_step (w w' : World) : Prop := {
  step_checkpoint : last_processed_block w' = last_processed_block w;
  step_file : state_file w' = state_file w;
  step_fetched : fetched (log w') = fetched (log w);
  step_cache : processed_events w ⊆ processed_events w';
  step_inv : dedup_inv w -> dedup_inv w'
}.

(** What a chunk or a cycle may change besides the checkpoint, the file
    and the windows asked. *)
Record listener_step (w w' : World) : Prop := {
  lstep_cache : processed_events w ⊆ processed_events w';
  lstep_inv : dedup_inv w -> dedup_inv w'
}.

Definition events_of (r : result (list Event)) : list Event :=
  match r with
  | Ok events => events
  | Raise _ => []
  end.

Definition file_after_save (fault : disk_fault) (w : World) : option string :=
  match fault with
  | DiskOk => Some (json_dumps (last_processed_block w))
  | OpenFails => state_file w
  | WriteFails written =>
      Some (substring 0 written (json_dumps (last_processed_block w)))
  end.

(** The checkpoint a list of windows leaves: the bound of the last one. *)
Definition checkpoint_after (ws : list (Z * Z)) (before : Z) : Z :=
  List.last (List.map snd ws) before.

(** [tiles W a b ws]: the windows [ws] tile [[a, b]] from left to right,
    all of width [W] but the last, which takes what is left. *)
Inductive tiles (W : Z) : Z -> Z -> list (Z * Z) -> Prop :=
| tiles_last a b :
    a <= b -> b - a + 1 <= W -> tiles W a b [(a, b)]
| tiles_cons a b ws :
    a + W - 1 < b ->
    tiles W (a + W) b ws ->
    tiles W a b ((a, a + W - 1) :: ws).

(** The worlds after each round of a loop. *)
Fixpoint scan_for_each {A} (l : list A) (body : A -> M unit) (w : World)
    : list World :=
  match l with
  | [] => []
  | x :: l' =>
      let w' := exec (body x) w in
      w' :: scan_for_each l' body w'
  end.

(** The value of [last_processed_block] after each chunk of the cycle,
    that is after each assignment to it, in order. *)
Definition cycle_checkpoints (cfg : Config) (env : CycleEnv) (w : World)
    : list Z :=
  match block_number env with
  | Ok latest_block =>
      let start_block := last_processed_block w + 1 in
      if start_block >? latest_block then []
      else
        match py_range start_block (latest_block + 1) (chunk_size cfg) with
        | Ok blocks =>
            List.map last_processed_block
              (scan_for_each blocks (process_chunk cfg env latest_block)
                 (exec (logger (InfoProcessingBlocks start_block latest_block))
                    w))
        | Raise _ => []
        end
  | Raise _ => []
  end.

(** The exceptions of the clause
    [except (json.JSONDecodeError, IOError)] of [_load_state]. *)
Definition is_JSONDecodeError (e : exn) : bool :=
  match e with
  | JSONDecodeError => true
  | _ => false
  end.

Definition load_clause_catches (e : exn) : bool :=
  is_JSONDecodeError e || is_IOError e.

(** ** Concrete inputs *)

(** A well-formed deposit of 5 tokens for recipient R, nonce 1. *)
Definition deposit (tx : string) (chain : Z) : Event :=
  mkEvent (Some tx) (Some (mkArgs (Some chain) (Some "R") (Some 5) (Some 1))).

(** An event log without its [transactionHash] key. *)
Definition malformed : Event := mkEvent None None.

(** A listener whose checkpoint and state file both say [block]. *)
Definition world_at (block : Z) : World :=
  mkWorld [] ∅ block (Some (json_dumps block)).

(** Height 250; the query for window [[201, 250]] times out. *)
Definition timeout_env : CycleEnv :=
  mkCycleEnv (Ok 250)
    (fun a b => if (a =? 201) && (b =? 250) then Raise ReadTimeout else Ok [])
    (fun _ => DiskOk).

(** Height 250; every query succeeds and finds nothing. *)
Definition quiet_env : CycleEnv :=
  mkCycleEnv (Ok 250) (fun _ _ => Ok []) (fun _ => DiskOk).

(** A decoder for the records [_save_state] writes with a non-negative
    block, which rejects every other text; it stands for [json.load] where
    a concrete decoder is needed. *)
Fixpoint digits_to_Z (s : string) (acc : Z) : option Z :=
  match s with
  | EmptyString => Some acc
  | String c s' =>
      let n := Z.of_nat (nat_of_ascii c) in
      if (48 <=? n) && (n <=? 57) then digits_to_Z s' (10 * acc + (n - 48))
      else None
  end.

Definition record_prefix : string :=
  ("{" ++ dquote ++ "last_processed_block" ++ dquote ++ ": ")%string.

Definition decode_record (text : string) : result json :=
  let n := String.length text in
  let p := String.length record_prefix in
  if String.prefix record_prefix text
     && String.eqb (substring (n - 1) 1 text) "}"
     && (p + 1 <? n)%nat
  then
    match digits_to_Z (substring p (n - 1 - p) text) 0 with
    | Some block => Ok (JDict [("last_processed_block", JInt block)])
    | None => Raise JSONDecodeError
    end
  else Raise JSONDecodeError.


End BridgeViews.

Module ListenerViews.
Import Bridge BridgeViews.
Local Open Scope list_scope.

(** The transaction id of an event that [process_event] can dispatch:
    all the keys it reads are there and the destination is the handler's
    chain. *)
Definition dispatchable (chain : Z) (ev : Event) : option string :=
  match transactionHash ev, args ev with
  | Some tx, Some a =>
      match destinationChainId a, amount a, recipient a, nonce a with
      | Some c, Some _, Some _, Some _ =>
          if c =? chain then Some tx else None
      | _, _, _, _ => None
      end
  | _, _ => None
  end.

(** The ids of the events of a batch that can be dispatched. *)
Definition dispatchable_ids (chain : Z) (evs : list Event) : gset string :=
  list_to_set (omap (dispatchable chain) evs).

(** The blocks at which the windows of a cycle start. *)
Definition cycle_blocks (cfg : Config) (w : World) (latest : Z) : list Z :=
  range_from
    (Z.to_nat (range_len (last_processed_block w + 1) (latest + 1)
                 (chunk_size cfg)))
    (last_processed_block w + 1) (chunk_size cfg).

(** The events the chain returns for the window starting at a block. *)
Definition window_events (cfg : Config) (env : CycleEnv) (latest b : Z)
    : list Event :=
  events_of (entries env b (Z.min (b + chunk_size cfg - 1) latest)).

(** [ladder c ws c']: the windows [ws] follow one another without gap
    or overlap, from just above [c] up to [c']. *)
Inductive ladder : Z -> list (Z * Z) -> Z -> Prop :=
| ladder_nil c : ladder c [] c
| ladder_cons c hi ws c' :
    c + 1 <= hi -> ladder hi ws c' -> ladder c ((c + 1, hi) :: ws) c'.

(** The state file holds the record of the checkpoint in memory. *)
Definition synced (w : World) : Prop :=
  state_file w = Some (json_dumps (last_processed_block w)).

(** Every save of the cycle succeeds. *)
Definition healthy_disk (env : CycleEnv) : Prop :=
  forall b, disk env b = DiskOk.

(** The log record of a cycle that ends in the handlers of [_run_cycle]. *)
Definition cycle_error (e : exn) : LogRecord :=
  if is_ConnectionError e then ErrorConnection e else ErrorCycle e.

(** What the cache gains between two worlds: exactly the transactions
    whose action was completed in between. *)
Definition grows (w w' : World) : Prop :=
  exists rs,
    log w' = log w ++ rs /\
    processed_events w' = processed_events w ∪ list_to_set (dispatched rs).

(** Height 250; every window holds one deposit of transaction tx1 for
    the configured destination. *)
Definition busy_env : CycleEnv :=
  mkCycleEnv (Ok 250) (fun _ _ => Ok [deposit "tx1" DESTINATION_CHAIN_ID])
    (fun _ => DiskOk).

(** The chain cannot be reached. *)
Definition offline_env : CycleEnv :=
  mkCycleEnv (Raise ConnectionError) (fun _ _ => Ok []) (fun _ => DiskOk).

(** Height 250; nothing can be written to the disk. *)
Definition readonly_env : CycleEnv :=
  mkCycleEnv (Ok 250) (fun _ _ => Ok []) (fun _ => OpenFails).

End ListenerViews.

(* ===================================================================== *)
(** * safety_checker.py *)
(* ===================================================================== *)

Module SafetyChecker.
Import AnimalSighting.

Definition SAFETY_LEVEL_SAFE : string := "Safe".
Definition SAFETY_LEVEL_CAUTION : string := "Caution".
Definition SAFETY_LEVEL_DANGEROUS : string := "Dangerous".
Definition SAFETY_LEVEL_UNKNOWN : string := "Unknown".

Definition _ANIMAL_SAFETY_RATINGS : gmap string string :=
  list_to_map
    [("zebra", SAFETY_LEVEL_SAFE);
     ("giraffe", SAFETY_LEVEL_SAFE);
     ("wildebeest", SAFETY_LEVEL_SAFE);
     ("impala", SAFETY_LEVEL_SAFE);
     ("warthog", SAFETY_LEVEL_CAUTION);
     ("baboon", SAFETY_LEVEL_CAUTION);
     ("hyena", SAFETY_LEVEL_CAUTION);
     ("elephant", SAFETY_LEVEL_DANGEROUS);
     ("lion", SAFETY_LEVEL_DANGEROUS);
     ("leopard", SAFETY_LEVEL_DANGEROUS);
     ("buffalo", SAFETY_LEVEL_DANGEROUS);
     ("rhino", SAFETY_LEVEL_DANGEROUS);
     ("hippopotamus", SAFETY_LEVEL_DANGEROUS)].

Definition get_animal_safety_rating (animal_name : string) : string :=
  let normalized_name := strip (lower animal_name) in
  default SAFETY_LEVEL_UNKNOWN (_ANIMAL_SAFETY_RATINGS !! normalized_name).

End SafetyChecker.

Module AnimalViews.
Import AnimalSighting.

(** Text made of whitespace only. *)
Fixpoint all_space (s : string) : bool :=
  match s with
  | EmptyString => true
  | String c s' => isspace c && all_space s'
  end.

(** The open interval between 0.0 and 1.0 on floats. *)
Definition strictly_inside_unit (x : float) : bool :=
  PrimFloat.ltb 0%float x && PrimFloat.ltb x 1%float.

End AnimalViews.

(* ===================================================================== *)
(** * Properties of the sighting probability *)
(* ===================================================================== *)

Module AnimalSightingFacts.
Import AnimalSighting.

Example lion_night :
  get_sighting_probability "  Lion " (Text "night") = percent_to_float 55.
Proof. vm_compute. reflexivity. Qed.

Example zebra_bad_weather :
  get_sighting_probability "zebra" (Text "Sunny") = percent_to_float 70.
Proof. vm_compute. reflexivity. Qed.

Lemma clamp_range (x : Z) : 0 <= clamp x <= 100.
Proof. unfold clamp. lia. Qed.

Lemma percents_complete (n : Z) : 0 <= n <= 100 -> In n percents.
Proof.
  intros Hn. unfold percents. apply in_map_iff.
  exists (Z.to_nat n). split; [lia|]. apply in_seq. lia.
Qed.

Lemma percent_to_float_unit (n : Z) :
  0 <= n <= 100 -> in_unit_interval (percent_to_float n) = true.
Proof.
  intros Hn.
  assert (Hall : forallb (fun k => in_unit_interval (percent_to_float k))
                   percents = true) by (vm_compute; reflexivity).
  rewrite forallb_forall in Hall. apply Hall, percents_complete, Hn.
Qed.

(** C10: for every animal name and every weather argument the result
    lies in [[0.0, 1.0]]; an animal that is not in the table gets exactly
    0.0 whatever the weather argument; a weather argument that names no
    member counts as a modifier of 0. *)
Theorem sighting_probability_in_unit_interval (animal_name : string)
    (weather : weather_arg) :
  in_unit_interval (get_sighting_probability animal_name weather) = true /\
  (BASE_PROBABILITIES !! animal_key_of animal_name = None ->
   get_sighting_probability animal_name weather = 0%float) /\
  (WeatherCondition_of weather = None ->
   modifier_of (animal_key_of animal_name) weather = 0 /\
   forall base_prob,
     BASE_PROBABILITIES !! animal_key_of animal_name = Some base_prob ->
     get_sighting_probability animal_name weather
     = percent_to_float (clamp (base_prob + 0))).
Proof.
  unfold get_sighting_probability, modifier_of.
  split; [|split].
  - destruct (BASE_PROBABILITIES !! animal_key_of animal_name) as [b|].
    + apply percent_to_float_unit, clamp_range.
    + reflexivity.
  - intros ->. reflexivity.
  - intros ->. split; [reflexivity|]. intros b ->. reflexivity.
Qed.

Example unknown_animal :
  get_sighting_probability "unicorn" (Member NIGHT) = 0%float.
Proof. vm_compute. reflexivity. Qed.

End AnimalSightingFacts.

(* ===================================================================== *)
(** * Properties of the listener *)
(* ===================================================================== *)

Module BridgeFacts.
Import Bridge BridgeViews.
Local Open Scope py_scope.
Local Open Scope list_scope.

(** ** Worlds that differ by log records and cache entries *)

Lemma emit_emit rs1 rs2 w : emit rs2 (emit rs1 w) = emit (rs1 ++ rs2) w.
Proof. unfold emit; simpl. by rewrite app_assoc. Qed.

Lemma emit_nil w : emit [] w = w.
Proof. destruct w; unfold emit; simpl. by rewrite app_nil_r. Qed.

Lemma logger_emit r w : logger r w = (Ok tt, emit [r] w).
Proof. reflexivity. Qed.

Ltac world_eq :=
  unfold emit, remember, add_processed, logger; simpl;
  rewrite <- ?app_assoc; simpl; try rewrite app_nil_r; reflexivity.

Ltac step_m :=
  unfold process_event, process_event_body, try_except, bind, getitem,
    ret, raise, lift in *; simpl in *.

(** ** The four ways [process_event] ends *)

Lemma process_event_duplicate chain ev w tx :
  transactionHash ev = Some tx ->
  tx ∈ processed_events w ->
  process_event chain ev w = (Ok tt, emit [WarnAlreadyProcessed tx] w).
Proof.
  intros Htx Hin. step_m. rewrite Htx.
  destruct (decide (tx ∈ processed_events w)); [reflexivity | contradiction].
Qed.

Lemma process_event_wrong_chain chain ev w tx a c :
  transactionHash ev = Some tx ->
  tx ∉ processed_events w ->
  args ev = Some a ->
  destinationChainId a = Some c ->
  c <> chain ->
  process_event chain ev w
  = (Ok tt, emit [InfoProcessingEvent tx; DebugWrongChain c] w).
Proof.
  intros Htx Hnin Ha Hc Hne. step_m. rewrite Htx.
  destruct (decide (tx ∈ processed_events w)); [contradiction|].
  rewrite Ha; simpl. rewrite Hc; simpl.
  destruct (Z.eqb_spec c chain); [contradiction|]. simpl.
  world_eq.
Qed.

Lemma process_event_dispatch chain ev w tx a amt rcp nce :
  transactionHash ev = Some tx ->
  tx ∉ processed_events w ->
  args ev = Some a ->
  destinationChainId a = Some chain ->
  amount a = Some amt ->
  recipient a = Some rcp ->
  nonce a = Some nce ->
  process_event chain ev w
  = (Ok tt,
     remember tx
       (emit [InfoProcessingEvent tx; InfoActionRequired chain;
              InfoMintUnlock amt rcp; InfoSourceTx tx nce] w)).
Proof.
  intros Htx Hnin Ha Hc Hamt Hrcp Hnce. step_m. rewrite Htx.
  destruct (decide (tx ∈ processed_events w)); [contradiction|].
  rewrite Ha; simpl. rewrite Hc; simpl. rewrite Z.eqb_refl; simpl.
  rewrite Hamt; simpl. rewrite Hrcp; simpl. rewrite Hnce; simpl.
  world_eq.
Qed.

(** When the body raises, what it logged before stays, the cache is the
    one it started with, and the handler adds the failure record. *)
Lemma process_event_body_raises chain ev w e w1 :
  process_event_body chain ev w = (Raise e, w1) ->
  exists rs, w1 = emit rs w /\ dispatched rs = [] /\ outcomes rs = [] /\
    (forall tx, transactionHash ev = Some tx -> tx ∉ processed_events w).
Proof.
  unfold process_event_body, bind, getitem, ret, raise.
  destruct (transactionHash ev) as [tx|]; simpl.
  2:{ intros [= <- <-]. exists [].
      split; [symmetry; apply emit_nil | by repeat (split; [reflexivity|])]. }
  destruct (decide (tx ∈ processed_events w)); [discriminate|].
  assert (Hfresh : forall tx', Some tx = Some tx' -> tx' ∉ processed_events w)
    by (by intros ? [= <-]).
  destruct (args ev) as [a|]; simpl.
  2:{ intros [= <- <-]. exists [].
      split; [symmetry; apply emit_nil | by repeat (split; [reflexivity|])]. }
  destruct (destinationChainId a) as [c|]; simpl.
  2:{ intros [= <- <-]. exists [InfoProcessingEvent tx].
      split; [world_eq | by repeat (split; [reflexivity|])]. }
  destruct (c =? chain); simpl; [|discriminate].
  destruct (amount a) as [amt|]; simpl.
  2:{ intros [= <- <-].
      exists [InfoProcessingEvent tx; InfoActionRequired chain].
      split; [world_eq | by repeat (split; [reflexivity|])]. }
  destruct (recipient a) as [rcp|]; simpl.
  2:{ intros [= <- <-].
      exists [InfoProcessingEvent tx; InfoActionRequired chain].
      split; [world_eq | by repeat (split; [reflexivity|])]. }
  destruct (nonce a); simpl; [discriminate|].
  intros [= <- <-].
  exists [InfoProcessingEvent tx; InfoActionRequired chain;
          InfoMintUnlock amt rcp].
  split; [world_eq | by repeat (split; [reflexivity|])].
Qed.

Lemma process_event_failed chain ev w e w1 :
  process_event_body chain ev w = (Raise e, w1) ->
  process_event chain ev w = (Ok tt, emit [ErrorFailedEvent ev e] w1).
Proof. intros H. unfold process_event, try_except. by rewrite H. Qed.

(** ** One handled event as a step relation *)

Lemma process_event_raise_handled chain ev w e w1 :
  process_event_body chain ev w = (Raise e, w1) ->
  exists w', process_event chain ev w = (Ok tt, w') /\
             handled chain ev w Failed w'.
Proof.
  intros Hb.
  destruct (process_event_body_raises _ _ _ _ _ Hb)
    as (rs & -> & Hd & Ho & Hf).
  exists (emit (rs ++ [ErrorFailedEvent ev e]) w). split.
  - rewrite (process_event_failed _ _ _ _ _ Hb). by rewrite emit_emit.
  - by apply handled_failed.
Qed.

Ltac body_raises :=
  match goal with
  | |- exists o w', process_event ?c ?ev ?w = _ /\ _ =>
      let Hb := fresh "Hb" in
      assert (Hb : exists e w1, process_event_body c ev w = (Raise e, w1));
      [ unfold process_event_body, bind, getitem, ret, raise;
        repeat match goal with
               | H : _ = Some _ |- _ => rewrite H
               | H : _ = None |- _ => rewrite H
               end;
        simpl;
        try (destruct (decide _); [contradiction|]);
        repeat match goal with
               | H : _ = Some _ |- _ => rewrite H
               | H : _ = None |- _ => rewrite H
               end;
        simpl; rewrite ?Z.eqb_refl; simpl;
        repeat match goal with
               | H : _ = Some _ |- _ => rewrite H
               | H : _ = None |- _ => rewrite H
               end;
        simpl; eauto
      | destruct Hb as (e & w1 & Hb);
        destruct (process_event_raise_handled _ _ _ _ _ Hb) as (w' & ? & ?);
        exists Failed, w'; split; assumption ]
  end.

(** [process_event] always returns, in exactly one of the four ways. *)
Lemma process_event_handled chain ev w :
  exists o w', process_event chain ev w = (Ok tt, w') /\
               handled chain ev w o w'.
Proof.
  destruct (transactionHash ev) as [tx|] eqn:Htx; [|body_raises].
  destruct (decide (tx ∈ processed_events w)) as [Hin|Hnin].
  { eexists _, _. split; [by apply process_event_duplicate|].
    by apply handled_duplicate. }
  destruct (args ev) as [a|] eqn:Ha; [|body_raises].
  destruct (destinationChainId a) as [c|] eqn:Hc; [|body_raises].
  destruct (Z.eq_dec c chain) as [->|Hne].
  2:{ eexists _, _. split; [by eapply process_event_wrong_chain|].
      by eapply handled_wrong_chain. }
  destruct (amount a) as [amt|] eqn:Hamt; [|body_raises].
  destruct (recipient a) as [rcp|] eqn:Hrcp; [|body_raises].
  destruct (nonce a) as [nce|] eqn:Hnce; [|body_raises].
  eexists _, _. split; [by eapply process_event_dispatch|].
  by eapply handled_dispatch.
Qed.

Lemma process_event_returns chain ev w :
  fst (process_event chain ev w) = Ok tt.
Proof.
  destruct (process_event_handled chain ev w) as (o & w' & -> & _).
  reflexivity.
Qed.

Lemma last_outcome (l rs : list LogRecord) (r : LogRecord) :
  List.last (List.map outcome_of_record (l ++ rs ++ [r])) None
  = outcome_of_record r.
Proof.
  rewrite app_assoc, map_app. simpl. apply last_last.
Qed.

(** The outcome read off the log is the one of the step taken. *)
Lemma handled_outcome chain ev w o w' :
  handled chain ev w o w' ->
  List.last (List.map outcome_of_record (log w')) None = Some o.
Proof.
  destruct 1; simpl.
  - apply (last_outcome (log w) [] (WarnAlreadyProcessed tx)).
  - apply (last_outcome (log w) [InfoProcessingEvent tx] (DebugWrongChain c)).
  - apply (last_outcome (log w)
             [InfoProcessingEvent tx; InfoActionRequired chain;
              InfoMintUnlock amt rcp] (InfoSourceTx tx nce)).
  - apply (last_outcome (log w) rs (ErrorFailedEvent ev e)).
Qed.

Lemma Handle_handled chain ev w :
  exists o, Handle chain ev w = (Some o, exec (process_event chain ev) w) /\
            handled chain ev w o (exec (process_event chain ev) w).
Proof.
  destruct (process_event_handled chain ev w) as (o & w' & Hp & Hh).
  exists o. unfold Handle, exec. rewrite Hp; simpl.
  split; [|assumption]. by rewrite (handled_outcome _ _ _ _ _ Hh).
Qed.

(** ** Loops *)

Lemma for_each_app {A} (body : A -> M unit) (l1 l2 : list A) w w1 :
  for_each l1 body w = (Ok tt, w1) ->
  for_each (l1 ++ l2) body w = for_each l2 body w1.
Proof.
  revert w. induction l1 as [|x l1 IH]; simpl; intros w H.
  - by injection H as ->.
  - unfold bind in *. destruct (body x w) as [[[]|e] w2]; [|discriminate].
    by apply IH.
Qed.

(** A loop whose body always returns, with an invariant that knows which
    elements are done. *)
Lemma for_each_inv {A} (body : A -> M unit) (I : list A -> World -> Prop)
    (l : list A) :
  (forall done x rest w, l = done ++ x :: rest -> I done w ->
     exists w', body x w = (Ok tt, w') /\ I (done ++ [x]) w') ->
  forall w, I [] w ->
  exists w', for_each l body w = (Ok tt, w') /\ I l w'.
Proof.
  intros Hbody.
  assert (Hgen : forall todo done w, l = done ++ todo -> I done w ->
            exists w', for_each todo body w = (Ok tt, w') /\ I l w').
  { induction todo as [|x todo IH]; intros done w Hl HI; simpl.
    - exists w. split; [reflexivity|]. by rewrite Hl, app_nil_r.
    - destruct (Hbody done x todo w Hl HI) as (w1 & Hx & HI1).
      unfold bind. rewrite Hx.
      apply (IH (done ++ [x])); [|assumption].
      by rewrite <- app_assoc. }
  intros w HI. by apply (Hgen l []).
Qed.

Lemma for_each_total {A} (body : A -> M unit) (I : World -> Prop)
    (l : list A) :
  (forall x w, In x l -> I w -> exists w', body x w = (Ok tt, w') /\ I w') ->
  forall w, I w -> exists w', for_each l body w = (Ok tt, w') /\ I w'.
Proof.
  intros Hbody.
  apply (for_each_inv body (fun _ => I)).
  intros done x rest w -> HI. apply Hbody; [|assumption].
  apply in_or_app. right. by left.
Qed.

(** ** What a log says: windows asked, actions completed, outcomes *)

Lemma fetched_app l1 l2 : fetched (l1 ++ l2) = fetched l1 ++ fetched l2.
Proof. apply flat_map_app. Qed.

Lemma dispatched_app l1 l2 :
  dispatched (l1 ++ l2) = dispatched l1 ++ dispatched l2.
Proof. apply flat_map_app. Qed.

Lemma outcomes_app l1 l2 : outcomes (l1 ++ l2) = outcomes l1 ++ outcomes l2.
Proof. apply omap_app. Qed.

Lemma dispatched_no_action rs :
  forallb (fun r => negb (is_action r)) rs = true -> dispatched rs = [].
Proof.
  induction rs as [|r rs IH]; simpl; [done|].
  intros [Hr Hrs]%andb_prop. destruct r; simpl in *; try discriminate; auto.
Qed.

Lemma handler_step_refl w : handler_step w w.
Proof. by split. Qed.

Lemma handler_step_trans w1 w2 w3 :
  handler_step w1 w2 -> handler_step w2 w3 -> handler_step w1 w3.
Proof.
  intros [] []. split; try congruence; [set_solver | auto].
Qed.

Lemma handler_step_emit rs w :
  fetched rs = [] -> dispatched rs = [] -> handler_step w (emit rs w).
Proof.
  intros Hf Hd. split; simpl; try done.
  - by rewrite fetched_app, Hf, app_nil_r.
  - unfold dedup_inv; simpl. by rewrite dispatched_app, Hd, app_nil_r.
Qed.

Lemma raised_fetched chain ev w e w1 :
  process_event_body chain ev w = (Raise e, w1) ->
  fetched (log w1) = fetched (log w).
Proof.
  unfold process_event_body, bind, getitem, ret, raise.
  destruct (transactionHash ev) as [tx|]; simpl; [|by intros [= <- <-]].
  destruct (decide (tx ∈ processed_events w)); [discriminate|].
  destruct (args ev) as [a|]; simpl; [|by intros [= <- <-]].
  destruct (destinationChainId a) as [c|]; simpl;
    [|intros [= <- <-]; simpl; by rewrite fetched_app, app_nil_r].
  destruct (c =? chain); simpl; [|discriminate].
  destruct (amount a), (recipient a), (nonce a); simpl;
    try discriminate; intros [= <- <-]; simpl;
    by rewrite !fetched_app, !app_nil_r.
Qed.

Lemma handled_step chain ev w o w' :
  handled chain ev w o w' -> handler_step w w'.
Proof.
  destruct 1 as [tx Htx Hin|tx a c Htx Hnin Ha Hc Hne
                |tx a amt rcp nce Htx Hnin Ha Hc Hamt Hrcp Hnce
                |e rs Hb Hd Ho Hfresh].
  - by apply handler_step_emit.
  - by apply handler_step_emit.
  - split; simpl; try done.
    + by rewrite fetched_app, app_nil_r.
    + set_solver.
    + intros [Hnd Hsub]. unfold dedup_inv; simpl.
      rewrite dispatched_app; simpl. split.
      * apply NoDup_app. split; [assumption|]. split; [|apply NoDup_singleton].
        intros x Hx ->%list_elem_of_singleton.
        apply Hnin, Hsub. by apply list_elem_of_In.
      * intros x [Hx| [<-|[]]]%in_app_or; [|set_solver].
        apply elem_of_union_r. by apply Hsub.
  - apply handler_step_emit.
    + pose proof (raised_fetched _ _ _ _ _ Hb) as Hf. simpl in Hf.
      rewrite fetched_app in Hf. rewrite fetched_app; simpl.
      rewrite app_nil_r.
      apply (f_equal (@List.length _)) in Hf.
      rewrite length_app in Hf.
      destruct (fetched rs); [done|simpl in Hf; lia].
    + rewrite dispatched_app, Hd. reflexivity.
Qed.

(** The batch loop of [_run_cycle]: every event is handled and the loop
    returns. *)
Lemma batch_returns chain evs w :
  exists w', for_each evs (process_event chain) w = (Ok tt, w') /\
             handler_step w w'.
Proof.
  apply (for_each_total _ (handler_step w)); [|apply handler_step_refl].
  intros ev w1 _ Hstep.
  destruct (process_event_handled chain ev w1) as (o & w2 & Hp & Hh).
  exists w2. split; [assumption|].
  eapply handler_step_trans; [eassumption|]. by eapply handled_step.
Qed.

(** ** Fetching and saving *)

Lemma fetch_events_effect entries a b w :
  exists rs,
    fetch_events entries a b w
    = (Ok (events_of (entries a b)), emit (DebugFetching a b :: rs) w) /\
    fetched rs = [] /\ dispatched rs = [].
Proof.
  unfold fetch_events, bind, ret.
  destruct (entries a b) as [[|ev evs]|e]; simpl.
  - exists []. done.
  - exists [InfoFound (S (length evs)) a b].
    split; [|done]. f_equal. world_eq.
  - destruct e; simpl;
      (eexists [_]; split; [f_equal; world_eq | done]).
Qed.

Lemma save_state_effect fault w :
  exists rs,
    _save_state fault w
    = (Ok tt, mkWorld (log w ++ rs) (processed_events w)
                (last_processed_block w) (file_after_save fault w)) /\
    fetched rs = [] /\ dispatched rs = [] /\
    (fault = DiskOk -> rs = []).
Proof.
  unfold _save_state, try_except, bind, raise.
  destruct fault; simpl.
  - exists []. rewrite app_nil_r. done.
  - exists [ErrorSaveState IOError]. done.
  - exists [ErrorSaveState IOError]. done.
Qed.

(** ** One chunk, one cycle *)

Lemma listener_step_refl w : listener_step w w.
Proof. by split. Qed.

Lemma listener_step_trans w1 w2 w3 :
  listener_step w1 w2 -> listener_step w2 w3 -> listener_step w1 w3.
Proof. intros [] []. split; [set_solver | auto]. Qed.

Lemma listener_step_quiet w w' :
  processed_events w' = processed_events w ->
  dispatched (log w') = dispatched (log w) ->
  listener_step w w'.
Proof.
  intros Hc Hd. split; [by rewrite Hc|].
  unfold dedup_inv. by rewrite Hc, Hd.
Qed.

Lemma process_chunk_effect cfg env latest b w :
  exists w',
    process_chunk cfg env latest b w = (Ok tt, w') /\
    last_processed_block w' = Z.min (b + chunk_size cfg - 1) latest /\
    fetched (log w') = fetched (log w) ++ [window (chunk_size cfg) latest b] /\
    state_file w'
    = file_after_save (disk env (Z.min (b + chunk_size cfg - 1) latest))
        (mkWorld [] ∅ (Z.min (b + chunk_size cfg - 1) latest) (state_file w)) /\
    listener_step w w'.
Proof.
  unfold process_chunk, bind.
  set (to_block := Z.min (b + chunk_size cfg - 1) latest).
  destruct (fetch_events_effect (entries env) b to_block w)
    as (rs & -> & Hf & Hd).
  destruct (batch_returns (destination_chain_id cfg)
              (events_of (entries env b to_block))
              (emit (DebugFetching b to_block :: rs) w))
    as (w1 & -> & Hstep).
  unfold set_last_processed_block at 1.
  match goal with |- context [_save_state ?f ?w0] =>
    destruct (save_state_effect f w0) as (rs2 & -> & Hf2 & Hd2 & _) end.
  destruct Hstep as [Hc1 Hfile1 Hfet1 Hcache1 Hinv1]; simpl in *.
  eexists. split; [reflexivity|]. simpl.
  split; [reflexivity|]. split.
  { rewrite fetched_app, Hf2, app_nil_r, Hfet1, fetched_app. simpl.
    by rewrite Hf. }
  split.
  { unfold file_after_save; simpl. destruct (disk env to_block); simpl; congruence. }
  split; simpl.
  - assumption.
  - intros Hinv. unfold dedup_inv; simpl.
    rewrite dispatched_app, Hd2, app_nil_r. apply Hinv1.
    unfold dedup_inv in *; simpl.
    rewrite dispatched_app; simpl. by rewrite Hd, app_nil_r.
Qed.

Lemma chunk_loop_effect cfg env latest blocks w :
  exists w',
    for_each blocks (process_chunk cfg env latest) w = (Ok tt, w') /\
    last_processed_block w'
    = checkpoint_after (List.map (window (chunk_size cfg) latest) blocks)
        (last_processed_block w) /\
    fetched (log w')
    = fetched (log w) ++ List.map (window (chunk_size cfg) latest) blocks /\
    listener_step w w'.
Proof.
  set (W := chunk_size cfg).
  apply (for_each_inv (process_chunk cfg env latest)
           (fun done w' =>
              last_processed_block w'
              = checkpoint_after (List.map (window W latest) done)
                  (last_processed_block w) /\
              fetched (log w')
              = fetched (log w) ++ List.map (window W latest) done /\
              listener_step w w')).
  - intros done x rest w1 _ (Hc & Hf & Hs).
    destruct (process_chunk_effect cfg env latest x w1)
      as (w2 & Hrun & Hc2 & Hf2 & _ & Hs2).
    exists w2. split; [assumption|]. split; [|split].
    + unfold checkpoint_after. rewrite !map_app; simpl.
      rewrite last_last. exact Hc2.
    + rewrite Hf2, Hf, map_app, <- app_assoc. reflexivity.
    + eapply listener_step_trans; eassumption.
  - split; [reflexivity|]. split; [by rewrite app_nil_r|].
    apply listener_step_refl.
Qed.

(** [_run_cycle] always returns.  When the height query fails nothing
    but the log changes; otherwise the windows of
    [[checkpoint + 1, latest]] are asked in order and the checkpoint ends
    at the bound of the last one. *)
Lemma run_cycle_effect cfg env w :
  exists w',
    _run_cycle cfg env w = (Ok tt, w') /\
    listener_step w w' /\
    match block_number env with
    | Raise _ =>
        last_processed_block w' = last_processed_block w /\
        fetched (log w') = fetched (log w) /\
        state_file w' = state_file w
    | Ok latest =>
        let ws := windows (chunk_size cfg) (last_processed_block w + 1) latest in
        last_processed_block w'
        = checkpoint_after ws (last_processed_block w) /\
        fetched (log w') = fetched (log w) ++ ws
    end.
Proof.
  unfold _run_cycle, run_cycle_body, try_except, bind, lift, windows.
  destruct (block_number env) as [latest|e]; simpl.
  2:{ destruct (is_ConnectionError e);
        (eexists; split; [reflexivity|]; split;
         [by apply listener_step_quiet; simpl;
             [|rewrite dispatched_app, app_nil_r]
         |simpl; by rewrite fetched_app, app_nil_r]). }
  destruct (last_processed_block w + 1 >? latest) eqn:Hgt.
  { eexists; split; [reflexivity|]. split.
    - apply listener_step_quiet; simpl; [done|].
      by rewrite dispatched_app, app_nil_r.
    - simpl. by rewrite fetched_app, !app_nil_r. }
  simpl. unfold py_range.
  destruct (chunk_size cfg =? 0) eqn:HW.
  { simpl. eexists; split; [reflexivity|]. split.
    - apply listener_step_quiet; simpl; [done|].
      by rewrite !dispatched_app, !app_nil_r.
    - simpl. by rewrite !fetched_app, !app_nil_r. }
  match goal with |- context [for_each ?bl ?body ?w0] =>
    destruct (chunk_loop_effect cfg env latest bl w0)
      as (w1 & -> & Hc & Hf & Hs) end.
  exists w1. split; [reflexivity|]. split.
  - eapply listener_step_trans; [|exact Hs].
    apply listener_step_quiet; simpl; [done|].
    by rewrite dispatched_app, app_nil_r.
  - simpl in *. split; [exact Hc|].
    rewrite Hf, fetched_app. simpl. by rewrite app_nil_r.
Qed.

(** ** The windows of a range *)

Lemma range_windows_tiles W b n a :
  0 < W -> a <= b -> Z.of_nat n = (b - a) / W + 1 ->
  tiles W a b (List.map (window W b) (range_from n a W)).
Proof.
  intros HW. revert a. induction n as [|n IH]; intros a Hab Hn.
  - pose proof (Z.div_pos (b - a) W). lia.
  - simpl. unfold window at 1.
    destruct (Z_lt_ge_dec (b - a) W) as [Hsmall|Hbig].
    + rewrite Z.div_small in Hn by lia.
      destruct n; [|lia]. simpl.
      rewrite Z.min_r by lia. apply tiles_last; lia.
    + rewrite Z.min_l by lia.
      assert (Hdiv : (b - (a + W)) / W = (b - a) / W - 1).
      { replace (b - (a + W)) with ((b - a) + (-1) * W) by lia.
        rewrite Z.div_add by lia. lia. }
      apply tiles_cons; [lia|]. apply IH; lia.
Qed.

Lemma windows_tiles W a b :
  0 < W -> a <= b -> tiles W a b (windows W a b).
Proof.
  intros HW Hab. unfold windows, py_range, range_len.
  destruct (Z.gtb_spec a b); [lia|].
  destruct (Z.eqb_spec W 0); [lia|].
  destruct (Z.ltb_spec 0 W); [|lia].
  destruct (Z.ltb_spec a (b + 1)); [|lia].
  apply range_windows_tiles; [assumption..|].
  pose proof (Z.div_pos (b + 1 - a - 1) W).
  rewrite Z2Nat.id by lia. do 2 f_equal. lia.
Qed.

Lemma windows_none W a b : W <= 0 \/ b < a -> windows W a b = [].
Proof.
  intros H. unfold windows, py_range, range_len.
  destruct (Z.gtb_spec a b); [reflexivity|].
  destruct (Z.eqb_spec W 0); [reflexivity|].
  destruct (Z.ltb_spec 0 W); [lia|].
  destruct (Z.ltb_spec (b + 1) a); [lia|]. reflexivity.
Qed.

Lemma tiles_head W a b ws :
  tiles W a b ws -> exists hi rest, ws = (a, hi) :: rest.
Proof. destruct 1; eauto. Qed.

Lemma tiles_bounds W a b ws :
  0 < W -> tiles W a b ws ->
  forall lo hi, In (lo, hi) ws ->
    a <= lo /\ lo <= hi /\ hi <= b /\ hi - lo + 1 <= W.
Proof.
  intros HW. induction 1 as [a b Hab Hw|a b ws Hlt Ht IH]; intros lo hi Hin.
  - destruct Hin as [[= <- <-]|[]]. lia.
  - destruct Hin as [[= <- <-]|Hin]; [lia|].
    specialize (IH lo hi Hin). lia.
Qed.

Lemma tiles_cover W a b ws :
  0 < W -> tiles W a b ws ->
  forall h, (exists lo hi, In (lo, hi) ws /\ lo <= h <= hi) <-> a <= h <= b.
Proof.
  intros HW Ht h. split.
  - intros (lo & hi & Hin & Hh).
    pose proof (tiles_bounds _ _ _ _ HW Ht lo hi Hin). lia.
  - induction Ht as [a b Hab Hw|a b ws Hlt Ht IH]; intros Hh.
    + exists a, b. split; [by left | lia].
    + destruct (Z_le_gt_dec h (a + W - 1)) as [Hle|Hgt].
      * exists a, (a + W - 1). split; [by left | lia].
      * destruct IH as (lo & hi & Hin & Hlo); [lia|].
        exists lo, hi. split; [by right | assumption].
Qed.

Lemma tiles_contiguous W a b ws :
  tiles W a b ws ->
  forall i lo1 hi1 lo2 hi2,
    nth_error ws i = Some (lo1, hi1) ->
    nth_error ws (S i) = Some (lo2, hi2) ->
    hi1 + 1 = lo2.
Proof.
  induction 1 as [a b Hab Hw|a b ws Hlt Ht IH]; intros i lo1 hi1 lo2 hi2 H1 H2.
  - destruct i; simpl in H2; [discriminate|]. by destruct i.
  - destruct i as [|i]; simpl in H1, H2.
    + injection H1 as <- <-.
      destruct (tiles_head _ _ _ _ Ht) as (hi & rest & ->).
      simpl in H2. injection H2 as <- <-. lia.
    + by apply (IH i lo1 hi1 lo2 hi2).
Qed.

Lemma tiles_disjoint W a b ws :
  0 < W -> tiles W a b ws ->
  forall i j lo1 hi1 lo2 hi2,
    (i < j)%nat ->
    nth_error ws i = Some (lo1, hi1) ->
    nth_error ws j = Some (lo2, hi2) ->
    hi1 < lo2.
Proof.
  intros HW.
  induction 1 as [a b Hab Hw|a b ws Hlt Ht IH];
    intros i j lo1 hi1 lo2 hi2 Hij H1 H2.
  - destruct j; [lia|]. simpl in H2. by destruct j.
  - destruct j as [|j]; [lia|]. simpl in H2.
    destruct i as [|i]; simpl in H1.
    + injection H1 as <- <-.
      apply nth_error_In in H2.
      pose proof (tiles_bounds _ _ _ _ HW Ht lo2 hi2 H2). lia.
    + apply (IH i j lo1 hi1 lo2 hi2); [lia|assumption..].
Qed.

Lemma tiles_checkpoint W a b ws before :
  tiles W a b ws -> checkpoint_after ws before = b.
Proof.
  unfold checkpoint_after.
  induction 1 as [a b Hab Hw|a b ws Hlt Ht IH]; [reflexivity|].
  destruct (tiles_head _ _ _ _ Ht) as (hi & rest & ->).
  simpl in *. exact IH.
Qed.

(** The checkpoint a cycle leaves, whatever the width. *)
Lemma checkpoint_after_windows W c latest :
  checkpoint_after (windows W (c + 1) latest) c
  = if (0 <? W) && (c <? latest) then latest else c.
Proof.
  destruct (Z.ltb_spec 0 W); simpl.
  - destruct (Z.ltb_spec c latest).
    + apply (tiles_checkpoint W (c + 1) latest). apply windows_tiles; lia.
    + rewrite windows_none by lia. reflexivity.
  - rewrite windows_none by lia. reflexivity.
Qed.

Lemma tiles_uppers W a b ws :
  0 < W -> tiles W a b ws ->
  StronglySorted Z.lt (List.map snd ws) /\
  Forall (fun v => a <= v <= b) (List.map snd ws).
Proof.
  intros HW. induction 1 as [a b Hab Hw|a b ws Hlt Ht [IHs IHb]]; simpl.
  - split; [repeat constructor | constructor; [lia | constructor]].
  - split.
    + constructor; [assumption|].
      eapply Forall_impl; [exact IHb|]. simpl. intros v Hv. lia.
    + constructor; [lia|].
      eapply Forall_impl; [exact IHb|]. simpl. intros v Hv. lia.
Qed.

(** ** The checkpoints assigned during one cycle *)

Lemma scan_checkpoints cfg env latest blocks w :
  List.map last_processed_block
    (scan_for_each blocks (process_chunk cfg env latest) w)
  = List.map snd (List.map (window (chunk_size cfg) latest) blocks).
Proof.
  revert w. induction blocks as [|b blocks IH]; intros w; simpl; [done|].
  destruct (process_chunk_effect cfg env latest b w) as (w' & Hrun & Hc & _).
  unfold exec at 1. rewrite Hrun; simpl. rewrite Hc. f_equal.
  unfold exec. rewrite Hrun; simpl. apply IH.
Qed.

Lemma cycle_checkpoints_windows cfg env w latest :
  block_number env = Ok latest ->
  cycle_checkpoints cfg env w
  = List.map snd (windows (chunk_size cfg) (last_processed_block w + 1) latest).
Proof.
  intros Hl. unfold cycle_checkpoints, windows. rewrite Hl.
  destruct (last_processed_block w + 1 >? latest); [reflexivity|].
  destruct (py_range _ _ _); [|reflexivity].
  apply scan_checkpoints.
Qed.

Lemma run_cycle_checkpoint cfg env w :
  last_processed_block (exec (_run_cycle cfg env) w)
  = match block_number env with
    | Ok latest =>
        if (0 <? chunk_size cfg) && (last_processed_block w <? latest)
        then latest else last_processed_block w
    | Raise _ => last_processed_block w
    end.
Proof.
  destruct (run_cycle_effect cfg env w) as (w' & Hrun & _ & Heff).
  unfold exec. rewrite Hrun; simpl.
  destruct (block_number env) as [latest|e].
  - destruct Heff as [-> _]. apply checkpoint_after_windows.
  - by destruct Heff.
Qed.

Lemma run_cycle_monotone cfg env w :
  last_processed_block w <= last_processed_block (exec (_run_cycle cfg env) w).
Proof.
  rewrite run_cycle_checkpoint.
  destruct (block_number env) as [latest|e]; [|lia].
  destruct (0 <? chunk_size cfg); simpl; [|lia].
  destruct (Z.ltb_spec (last_processed_block w) latest); lia.
Qed.

Lemma run_cycles_returns cfg envs w :
  exists w', run_cycles cfg envs w = (Ok tt, w') /\
             last_processed_block w <= last_processed_block w' /\
             listener_step w w'.
Proof.
  apply (for_each_total (_run_cycle cfg)
           (fun w' => last_processed_block w <= last_processed_block w' /\
                      listener_step w w')).
  - intros env w1 _ [Hle Hs].
    destruct (run_cycle_effect cfg env w1) as (w2 & Hrun & Hs2 & _).
    exists w2. split; [assumption|]. split.
    + pose proof (run_cycle_monotone cfg env w1) as Hm.
      unfold exec in Hm. rewrite Hrun in Hm. simpl in Hm. lia.
    + eapply listener_step_trans; eassumption.
  - split; [lia | apply listener_step_refl].
Qed.

(** ** Chunking *)

(** C4: for a range [[a, b]] with [a <= b] and a width [W > 0], the
    windows the loop generates cover [[a, b]] exactly, each spans at most
    [W] heights, consecutive windows are contiguous and no two overlap;
    a cycle asks for exactly these windows, in order, and ends with the
    checkpoint at [b].  With checkpoint 100, latest height 250 and width
    100 the windows are [[101,200]] and [[201,250]] and the checkpoint
    ends at 250. *)
Theorem chunking_exhaustive (W a b : Z) :
  0 < W -> a <= b ->
  let ws := windows W a b in
  (forall h, (exists lo hi, In (lo, hi) ws /\ lo <= h <= hi) <-> a <= h <= b) /\
  (forall lo hi, In (lo, hi) ws -> lo <= hi /\ hi - lo + 1 <= W) /\
  (forall i lo1 hi1 lo2 hi2,
     nth_error ws i = Some (lo1, hi1) ->
     nth_error ws (S i) = Some (lo2, hi2) ->
     hi1 + 1 = lo2) /\
  (forall i j lo1 hi1 lo2 hi2,
     (i < j)%nat ->
     nth_error ws i = Some (lo1, hi1) ->
     nth_error ws j = Some (lo2, hi2) ->
     hi1 < lo2) /\
  (forall dest env w,
     block_number env = Ok b ->
     last_processed_block w + 1 = a ->
     let w' := exec (_run_cycle (mkConfig W dest) env) w in
     fetched (log w') = fetched (log w) ++ ws /\
     last_processed_block w' = b) /\
  windows BLOCK_PROCESSING_CHUNK_SIZE 101 250 = [(101, 200); (201, 250)] /\
  (forall env w,
     block_number env = Ok 250 ->
     last_processed_block w = 100 ->
     let w' := exec (_run_cycle default_config env) w in
     fetched (log w') = fetched (log w) ++ [(101, 200); (201, 250)] /\
     last_processed_block w' = 250).
Proof.
  intros HW Hab ws.
  pose proof (windows_tiles W a b HW Hab) as Ht. fold ws in Ht.
  split; [by apply (tiles_cover W a b)|].
  split.
  { intros lo hi Hin.
    pose proof (tiles_bounds _ _ _ _ HW Ht lo hi Hin). lia. }
  split; [by apply (tiles_contiguous W a b)|].
  split; [by apply (tiles_disjoint W a b)|].
  split.
  { intros dest env w Hl Hc w'. subst w'.
    destruct (run_cycle_effect (mkConfig W dest) env w)
      as (w' & Hrun & _ & Heff).
    unfold exec. rewrite Hrun; simpl. rewrite Hl in Heff. simpl in Heff.
    rewrite Hc in Heff. fold ws in Heff. destruct Heff as [Hcp Hf].
    split; [assumption|]. rewrite Hcp.
    by apply (tiles_checkpoint W a b). }
  split; [reflexivity|].
  intros env w Hl Hc w'. subst w'.
  destruct (run_cycle_effect default_config env w) as (w' & Hrun & _ & Heff).
  unfold exec. rewrite Hrun; simpl. rewrite Hl in Heff. simpl in Heff.
  rewrite Hc in Heff. destruct Heff as [Hcp Hf].
  split; [exact Hf | exact Hcp].
Qed.

Lemma chunking_exhaustive_witness :
  (0 < 100 /\ 101 <= 250) /\
  (forall h,
     (exists lo hi, In (lo, hi) (windows 100 101 250) /\ lo <= h <= hi)
     <-> 101 <= h <= 250).
Proof.
  split; [lia|].
  exact (proj1 (chunking_exhaustive 100 101 250 ltac:(lia) ltac:(lia))).
Defined.

(** ** The checkpoint *)

(** C2: across every sequence of polling cycles [last_processed_block]
    never decreases, and within a cycle every value assigned to it is
    above the previous one and at most the chain height that cycle
    observed at its start. *)
Theorem checkpoint_monotone_bounded (cfg : Config)
    (envs1 envs2 : list CycleEnv) (w : World) :
  last_processed_block w
  <= last_processed_block (exec (run_cycles cfg envs1) w) /\
  last_processed_block (exec (run_cycles cfg envs1) w)
  <= last_processed_block (exec (run_cycles cfg (envs1 ++ envs2)) w) /\
  (forall env w1,
     let cs := cycle_checkpoints cfg env w1 in
     StronglySorted Z.lt cs /\
     Forall (fun v => last_processed_block w1 < v /\
                      exists latest, block_number env = Ok latest /\
                                     v <= latest) cs /\
     last_processed_block (exec (_run_cycle cfg env) w1)
     = List.last cs (last_processed_block w1)).
Proof.
  destruct (run_cycles_returns cfg envs1 w) as (w1 & Hrun1 & Hle1 & _).
  split; [unfold exec; by rewrite Hrun1|].
  split.
  { unfold exec, run_cycles in *. rewrite (for_each_app _ _ _ _ _ Hrun1).
    rewrite Hrun1; simpl.
    destruct (run_cycles_returns cfg envs2 w1) as (w2 & Hrun2 & Hle2 & _).
    unfold run_cycles in Hrun2. by rewrite Hrun2. }
  intros env w0 cs. subst cs.
  destruct (run_cycle_effect cfg env w0) as (w' & Hrun & _ & Heff).
  unfold exec. rewrite Hrun; simpl.
  destruct (block_number env) as [latest|e] eqn:Hl.
  2:{ unfold cycle_checkpoints. rewrite Hl. simpl.
      split; [constructor|]. split; [constructor|]. by destruct Heff. }
  rewrite (cycle_checkpoints_windows _ _ _ _ Hl).
  destruct Heff as [Hcp _].
  split; [|split; [|exact Hcp]].
  - destruct (Z_lt_le_dec 0 (chunk_size cfg)) as [HW|HW];
      [|rewrite windows_none by lia; constructor].
    destruct (Z_lt_le_dec (last_processed_block w0) latest) as [Hc|Hc];
      [|rewrite windows_none by lia; constructor].
    eapply tiles_uppers; [exact HW|]. apply windows_tiles; lia.
  - destruct (Z_lt_le_dec 0 (chunk_size cfg)) as [HW|HW];
      [|rewrite windows_none by lia; constructor].
    destruct (Z_lt_le_dec (last_processed_block w0) latest) as [Hc|Hc];
      [|rewrite windows_none by lia; constructor].
    assert (Ht : tiles (chunk_size cfg) (last_processed_block w0 + 1) latest
                   (windows (chunk_size cfg) (last_processed_block w0 + 1)
                      latest)) by (apply windows_tiles; lia).
    destruct (tiles_uppers _ _ _ _ HW Ht) as [_ Hb].
    eapply Forall_impl; [exact Hb|]. simpl. intros v Hv.
    split; [lia|]. exists latest. split; [reflexivity | lia].
Qed.

(** C1: a fetch fault on window [[201, 250]] with the checkpoint at 200.
    The claim asks that the checkpoint stay at 200 and that the window be
    fetched again; the code logs the timeout, moves the checkpoint to 250,
    writes it to the state file, and the next cycle asks for nothing. *)
Theorem fetch_fault_advances_checkpoint :
  let w1 := exec (_run_cycle default_config timeout_env) (world_at 200) in
  let w2 := exec (_run_cycle default_config quiet_env) w1 in
  log w1 = [InfoProcessingBlocks 201 250; DebugFetching 201 250;
            ErrorRpcTimeout 201 250] /\
  last_processed_block w1 = 250 /\
  state_file w1 = Some (json_dumps 250) /\
  fetched (log w2) = [(201, 250)] /\
  last_processed_block w2 = 250.
Proof. vm_compute. repeat split. Qed.

(** ** The event handler *)

Lemma handled_outcomes chain ev w o w' :
  handled chain ev w o w' -> outcomes (log w') = outcomes (log w) ++ [o].
Proof.
  destruct 1; simpl; rewrite outcomes_app; try reflexivity.
  rewrite outcomes_app. simpl.
  match goal with H : outcomes rs = [] |- _ => rewrite H end. reflexivity.
Qed.

Lemma batch_outcomes chain evs w :
  exists w' os,
    for_each evs (process_event chain) w = (Ok tt, w') /\
    outcomes (log w') = outcomes (log w) ++ os /\
    length os = length evs.
Proof.
  destruct (for_each_inv (process_event chain)
              (fun done w' => exists os,
                 outcomes (log w') = outcomes (log w) ++ os /\
                 length os = length done) evs) with (w := w)
    as (w' & Hrun & os & Hos & Hlen).
  - intros done ev rest w1 _ (os & Hos & Hlen).
    destruct (process_event_handled chain ev w1) as (o & w2 & Hp & Hh).
    exists w2. split; [assumption|]. exists (os ++ [o]). split.
    + rewrite (handled_outcomes _ _ _ _ _ Hh), Hos. by rewrite app_assoc.
    + rewrite !length_app. simpl. lia.
  - exists []. by rewrite app_nil_r.
  - by exists w', os.
Qed.

(** C5, as the code has it: an event for another destination chain is
    never handed to the action sink and leaves the dedup cache, the
    checkpoint and the state file as they were; its outcome is the
    wrong-chain skip, unless its transaction id is already in the cache,
    in which case the duplicate check, which comes first, skips it. *)
Theorem wrong_chain_event_no_effect chain ev w tx a c :
  transactionHash ev = Some tx ->
  args ev = Some a ->
  destinationChainId a = Some c ->
  c <> chain ->
  exists rs,
    Handle chain ev w
    = (Some (if bool_decide (tx ∈ processed_events w)
             then SkippedDuplicate else SkippedWrongChain),
       emit rs w) /\
    forallb (fun r => negb (is_action r)) rs = true /\
    processed_events (snd (Handle chain ev w)) = processed_events w.
Proof.
  intros Htx Ha Hc Hne. unfold Handle, exec.
  destruct (decide (tx ∈ processed_events w)) as [Hin|Hnin].
  - rewrite (process_event_duplicate _ _ _ _ Htx Hin).
    rewrite bool_decide_true by assumption.
    exists [WarnAlreadyProcessed tx]. simpl. split; [|done].
    f_equal. apply (last_outcome (log w) [] (WarnAlreadyProcessed tx)).
  - rewrite (process_event_wrong_chain _ _ _ _ _ _ Htx Hnin Ha Hc Hne).
    rewrite bool_decide_false by assumption.
    exists [InfoProcessingEvent tx; DebugWrongChain c]. simpl.
    split; [|done]. f_equal.
    apply (last_outcome (log w) [InfoProcessingEvent tx] (DebugWrongChain c)).
Qed.

Lemma wrong_chain_event_no_effect_witness :
  exists rs,
    Handle DESTINATION_CHAIN_ID (deposit "tx1" 5) (initial_world None)
    = (Some SkippedWrongChain, emit rs (initial_world None)) /\
    forallb (fun r => negb (is_action r)) rs = true /\
    processed_events
      (snd (Handle DESTINATION_CHAIN_ID (deposit "tx1" 5) (initial_world None)))
    = processed_events (initial_world None).
Proof.
  apply (wrong_chain_event_no_effect DESTINATION_CHAIN_ID (deposit "tx1" 5)
           (initial_world None) "tx1"
           (mkArgs (Some 5) (Some "R") (Some 5) (Some 1)) 5);
    [reflexivity | reflexivity | reflexivity | discriminate].
Defined.

(** C5 as stated fails: once a deposit of transaction tx1 has been
    dispatched, a second event of tx1 addressed to chain 5 is skipped as
    a duplicate, not as a wrong-chain event. *)
Lemma wrong_chain_outcome_counterexample :
  let w1 := snd (Handle DESTINATION_CHAIN_ID
                   (deposit "tx1" DESTINATION_CHAIN_ID) (initial_world None)) in
  destinationChainId (mkArgs (Some 5) (Some "R") (Some 5) (Some 1)) = Some 5 /\
  5 <> DESTINATION_CHAIN_ID /\
  fst (Handle DESTINATION_CHAIN_ID (deposit "tx1" 5) w1)
  = Some SkippedDuplicate /\
  fst (Handle DESTINATION_CHAIN_ID (deposit "tx1" 5) w1)
  <> Some SkippedWrongChain.
Proof.
  intros w1.
  assert (H : fst (Handle DESTINATION_CHAIN_ID (deposit "tx1" 5) w1)
              = Some SkippedDuplicate) by (vm_compute; reflexivity).
  rewrite H. split; [reflexivity|]. split; [discriminate|].
  split; [reflexivity | discriminate].
Qed.

Lemma Handle_duplicate chain ev w tx :
  transactionHash ev = Some tx ->
  tx ∈ processed_events w ->
  Handle chain ev w
  = (Some SkippedDuplicate, emit [WarnAlreadyProcessed tx] w).
Proof.
  intros Htx Hin. unfold Handle, exec.
  rewrite (process_event_duplicate _ _ _ _ Htx Hin). simpl. f_equal.
  apply (last_outcome (log w) [] (WarnAlreadyProcessed tx)).
Qed.

Lemma Handle_dispatch chain ev w tx a amt rcp nce :
  transactionHash ev = Some tx ->
  tx ∉ processed_events w ->
  args ev = Some a ->
  destinationChainId a = Some chain ->
  amount a = Some amt ->
  recipient a = Some rcp ->
  nonce a = Some nce ->
  fst (Handle chain ev w) = Some Dispatched.
Proof.
  intros Htx Hnin Ha Hc Hamt Hrcp Hnce. unfold Handle, exec.
  rewrite (process_event_dispatch _ _ _ _ _ _ _ _ Htx Hnin Ha Hc Hamt Hrcp Hnce).
  simpl.
  apply (last_outcome (log w)
           [InfoProcessingEvent tx; InfoActionRequired chain;
            InfoMintUnlock amt rcp] (InfoSourceTx tx nce)).
Qed.

Lemma initial_dedup_inv file : dedup_inv (initial_world file).
Proof. split; simpl; [constructor | intros ? []]. Qed.

(** C3, as the code has it: in one process lifetime no transaction id is
    handed to the action sink twice, and once an event of a transaction
    has been dispatched every later delivery of an event with that
    transaction id is rejected by the dedup filter, with nothing but the
    warning logged. *)
Theorem no_transaction_dispatched_twice (cfg : Config)
    (envs : list CycleEnv) (file : option string) :
  let w := exec (run_cycles cfg envs) (initial_world file) in
  NoDup (dispatched (log w)) /\
  (forall ev tx,
     transactionHash ev = Some tx ->
     In tx (dispatched (log w)) ->
     Handle (destination_chain_id cfg) ev w
     = (Some SkippedDuplicate, emit [WarnAlreadyProcessed tx] w)) /\
  (forall chain w0 w1 ev1 ev2 tx,
     transactionHash ev1 = Some tx ->
     transactionHash ev2 = Some tx ->
     fst (Handle chain ev1 w0) = Some Dispatched ->
     processed_events (snd (Handle chain ev1 w0)) ⊆ processed_events w1 ->
     Handle chain ev2 w1
     = (Some SkippedDuplicate, emit [WarnAlreadyProcessed tx] w1)).
Proof.
  intros w.
  destruct (run_cycles_returns cfg envs (initial_world file))
    as (w' & Hrun & _ & [_ Hinv]).
  assert (Hw : w = w') by (unfold w, exec; by rewrite Hrun).
  destruct (Hinv (initial_dedup_inv file)) as [Hnd Hsub].
  rewrite <- Hw in Hnd, Hsub.
  split; [assumption|]. split.
  - intros ev tx Htx Hin. apply Handle_duplicate; auto.
  - intros chain w0 w1 ev1 ev2 tx Htx1 Htx2 Hd Hsubset.
    apply Handle_duplicate; [assumption|]. apply Hsubset.
    destruct (Handle_handled chain ev1 w0) as (o & HH & Hh).
    rewrite HH in Hd |- *. simpl in Hd |- *.
    assert (Ho : o = Dispatched) by congruence. subst o.
    inversion Hh as [| |tx' a amt rcp nce Htx' _ _ _ _ _ _ Hw'|].
    rewrite Htx1 in Htx'. injection Htx' as <-.
    simpl. set_solver.
Qed.

(** C3 as stated fails: an event addressed to another chain is not put
    in the cache, so its second delivery is not rejected by the dedup
    filter (it is skipped for its chain again), and a deposit of the same
    transaction for the right chain is then dispatched. *)
Lemma repeat_delivery_not_deduplicated :
  let ev := deposit "tx1" 5 in
  let w1 := snd (Handle DESTINATION_CHAIN_ID ev (initial_world None)) in
  transactionHash ev = transactionHash (deposit "tx1" DESTINATION_CHAIN_ID) /\
  fst (Handle DESTINATION_CHAIN_ID ev w1) = Some SkippedWrongChain /\
  fst (Handle DESTINATION_CHAIN_ID ev w1) <> Some SkippedDuplicate /\
  fst (Handle DESTINATION_CHAIN_ID (deposit "tx1" DESTINATION_CHAIN_ID) w1)
  = Some Dispatched.
Proof.
  intros ev w1.
  assert (H1 : fst (Handle DESTINATION_CHAIN_ID ev w1)
               = Some SkippedWrongChain) by (vm_compute; reflexivity).
  assert (H2 : fst (Handle DESTINATION_CHAIN_ID
                      (deposit "tx1" DESTINATION_CHAIN_ID) w1)
               = Some Dispatched) by (vm_compute; reflexivity).
  rewrite H1, H2. split; [reflexivity|]. split; [reflexivity|].
  split; [discriminate | reflexivity].
Qed.

(** C9: a transaction id enters the dedup cache only in a call that has
    emitted the whole dispatch action, after its last line; an event
    skipped for its chain or failed by an exception leaves the cache as
    it was, so a well-formed deposit of the same transaction for the
    configured chain delivered next is dispatched. *)
Theorem cache_entry_only_after_dispatch (chain : Z) (ev : Event) (w : World) :
  let w' := exec (process_event chain ev) w in
  exists o rs,
    Handle chain ev w = (Some o, w') /\
    log w' = log w ++ rs /\
    (o = Dispatched ->
       exists tx nce front,
         transactionHash ev = Some tx /\
         (tx ∉ processed_events w) /\
         processed_events w' = {[ tx ]} ∪ processed_events w /\
         rs = front ++ [InfoSourceTx tx nce]) /\
    (o <> Dispatched ->
       processed_events w' = processed_events w /\ dispatched rs = []) /\
    (o = SkippedWrongChain \/ o = Failed ->
       forall tx ev2 a amt rcp nce,
         transactionHash ev = Some tx ->
         transactionHash ev2 = Some tx ->
         args ev2 = Some a ->
         destinationChainId a = Some chain ->
         amount a = Some amt ->
         recipient a = Some rcp ->
         nonce a = Some nce ->
         fst (Handle chain ev2 w') = Some Dispatched).
Proof.
  intros w'. destruct (Handle_handled chain ev w) as (o & HH & Hh).
  fold w' in HH, Hh. exists o.
  destruct Hh as [tx Htx Hin|tx a c Htx Hnin Ha Hc Hne
                 |tx a amt rcp nce Htx Hnin Ha Hc Hamt Hrcp Hnce
                 |e rs Hb Hd Ho Hfresh].
  - exists [WarnAlreadyProcessed tx].
    split; [assumption|]. split; [reflexivity|].
    split; [discriminate|]. split; [done|]. by intros [|].
  - exists [InfoProcessingEvent tx; DebugWrongChain c].
    split; [assumption|]. split; [reflexivity|].
    split; [discriminate|]. split; [done|].
    intros _ tx2 ev2 a2 amt rcp nce Htx1 Htx2 Ha2 Hc2 Hamt Hrcp Hnce.
    rewrite Htx in Htx1. injection Htx1 as <-.
    by eapply Handle_dispatch.
  - eexists. split; [eassumption|]. split; [reflexivity|].
    split.
    + intros _. exists tx, nce.
      exists [InfoProcessingEvent tx; InfoActionRequired chain;
              InfoMintUnlock amt rcp].
      by repeat split.
    + split; [done|]. by intros [|].
  - exists (rs ++ [ErrorFailedEvent ev e]).
    split; [assumption|]. split; [reflexivity|].
    split; [discriminate|]. split.
    + intros _. split; [reflexivity|]. by rewrite dispatched_app, Hd.
    + intros _ tx2 ev2 a2 amt rcp nce Htx1 Htx2 Ha2 Hc2 Hamt Hrcp Hnce.
      eapply Handle_dispatch; try eassumption. simpl. by apply Hfresh.
Qed.

(** C8: when handling one event of a batch raises, the exception is
    caught and logged as the failure of that event, the cache is left as
    it was, and the loop goes on with the remaining events; the loop over
    the batch returns and every event of the batch gets its outcome. *)
Theorem failed_event_does_not_abort_batch chain evs1 ev evs2 w e w1 :
  process_event_body chain ev (exec (for_each evs1 (process_event chain)) w)
  = (Raise e, w1) ->
  for_each (evs1 ++ ev :: evs2) (process_event chain) w
  = for_each evs2 (process_event chain) (emit [ErrorFailedEvent ev e] w1) /\
  processed_events w1
  = processed_events (exec (for_each evs1 (process_event chain)) w) /\
  fst (for_each (evs1 ++ ev :: evs2) (process_event chain) w) = Ok tt /\
  exists os,
    outcomes (log (exec (for_each (evs1 ++ ev :: evs2) (process_event chain)) w))
    = outcomes (log w) ++ os /\
    length os = length (evs1 ++ ev :: evs2).
Proof.
  intros Hb.
  destruct (batch_returns chain evs1 w) as (w0 & Hrun1 & _).
  unfold exec in Hb. rewrite Hrun1 in Hb. simpl in Hb.
  split.
  { rewrite (for_each_app _ _ _ _ _ Hrun1). simpl. unfold bind at 1.
    by rewrite (process_event_failed _ _ _ _ _ Hb). }
  split.
  { unfold exec. rewrite Hrun1. simpl.
    destruct (process_event_body_raises _ _ _ _ _ Hb) as (rs & -> & _).
    reflexivity. }
  destruct (batch_outcomes chain (evs1 ++ ev :: evs2) w)
    as (w' & os & Hrun & Hos & Hlen).
  unfold exec. rewrite Hrun. simpl. split; [reflexivity|]. by exists os.
Qed.

Lemma failed_event_does_not_abort_batch_witness :
  for_each ([deposit "tx1" DESTINATION_CHAIN_ID] ++ malformed
              :: [deposit "tx2" DESTINATION_CHAIN_ID])
    (process_event DESTINATION_CHAIN_ID) (initial_world None)
  = for_each [deposit "tx2" DESTINATION_CHAIN_ID]
      (process_event DESTINATION_CHAIN_ID)
      (emit [ErrorFailedEvent malformed (KeyError "transactionHash")]
         (exec (for_each [deposit "tx1" DESTINATION_CHAIN_ID]
                  (process_event DESTINATION_CHAIN_ID)) (initial_world None))).
Proof.
  exact (proj1 (failed_event_does_not_abort_batch DESTINATION_CHAIN_ID
                  [deposit "tx1" DESTINATION_CHAIN_ID] malformed
                  [deposit "tx2" DESTINATION_CHAIN_ID] (initial_world None)
                  (KeyError "transactionHash") _ eq_refl)).
Defined.

(** ** Saving the checkpoint *)

Lemma substring_all (s : string) : substring 0 (String.length s) s = s.
Proof. induction s as [|c s IH]; simpl; [reflexivity | by rewrite IH]. Qed.

Lemma substring_length (k : nat) (s : string) :
  String.length (substring 0 k s) = Nat.min k (String.length s).
Proof.
  revert k. induction s as [|c s IH]; intros [|k]; simpl; try reflexivity.
  by rewrite IH.
Qed.

(** C6, as the code has it: a save rewrites the state file in place.
    [open(..., 'w')] truncates the file and the record is then written
    into it, so a completed save leaves exactly the new record, while a
    save stopped mid-write leaves the old record (nothing done yet) or a
    prefix of the new one, the empty file first, which is the complete
    record only once its last character is written; a write that raises
    [IOError] leaves such a prefix too. *)
Theorem save_overwrites_in_place (w : World) (steps : nat) :
  let old := state_file w in
  let block := last_processed_block w in
  _save_state DiskOk w
  = (Ok tt, mkWorld (log w) (processed_events w) block
              (Some (json_dumps block))) /\
  disk_after 0 old block = old /\
  disk_after 1 old block = Some EmptyString /\
  disk_after (S steps) old block
  = Some (substring 0 steps (json_dumps block)) /\
  ((steps < String.length (json_dumps block))%nat ->
   disk_after (S steps) old block <> Some (json_dumps block)) /\
  disk_after (S (String.length (json_dumps block))) old block
  = state_file (exec (_save_state DiskOk) w) /\
  state_file (exec (_save_state (WriteFails steps)) w)
  = disk_after (S steps) old block.
Proof.
  intros old block.
  split; [reflexivity|]. split; [reflexivity|]. split; [reflexivity|].
  split; [reflexivity|]. split.
  { intros Hlt Heq. unfold disk_after in Heq.
    assert (Hlen : String.length (substring 0 steps (json_dumps block))
                   = String.length (json_dumps block)) by congruence.
    rewrite substring_length in Hlen. lia. }
  split; [|reflexivity].
  simpl. by rewrite substring_all.
Qed.

(** C6 as stated fails: with the record of block 200 on disk, a save of
    block 250 stopped right after the file is opened leaves an empty
    file, which is neither the old record nor the new one; so does a
    write that fails at once. *)
Lemma save_interrupted_leaves_empty_file :
  let old := Some (json_dumps 200) in
  disk_after 1 old 250 = Some EmptyString /\
  disk_after 1 old 250 <> old /\
  disk_after 1 old 250 <> Some (json_dumps 250) /\
  state_file (exec (_save_state (WriteFails 0)) (mkWorld [] ∅ 250 old))
  = Some EmptyString.
Proof.
  intros old. split; [reflexivity|].
  split; [vm_compute; discriminate|].
  split; [vm_compute; discriminate|]. reflexivity.
Qed.

(** ** Loading the checkpoint *)


Section LoadFacts.

Variable json_load : string -> result json.

(** [json.load] raises [JSONDecodeError] on an empty file. *)
Hypothesis json_load_empty : json_load EmptyString = Raise JSONDecodeError.




End LoadFacts.



(** A document that decodes but lacks the key is not a seeding case:
    the [KeyError] leaves [_load_state]. *)
Example load_of_keyless_document :
  fst (_load_state (fun _ => Ok (JDict [])) (mkLoadEnv false (fun _ => Ok 1000))
         (initial_world (Some "{}")))
  = Raise (KeyError "last_processed_block").
Proof. reflexivity. Qed.

Example load_of_saved_record :
  fst (_load_state decode_record (mkLoadEnv false (fun _ => Ok 1000))
         (initial_world (Some (json_dumps 250))))
  = Ok (LoadedBlock 250).
Proof. vm_compute. reflexivity. Qed.

(** A record with the key and other keys besides is loaded: the integer
    becomes the checkpoint and the record is logged. *)
Example load_of_record_with_other_keys :
  _load_state
    (fun _ => Ok (JDict [("last_processed_block", JInt 5); ("note", JNull)]))
    (mkLoadEnv false (fun _ => Ok 1000)) (initial_world (Some "{...}"))
  = (Ok (LoadedOther
           (JDict [("last_processed_block", JInt 5); ("note", JNull)])),
     mkWorld [InfoStateLoaded 5] ∅ 5 (Some "{...}")).
Proof. reflexivity. Qed.

(** A value under the key that is no integer is loaded and logged just
    the same; no height is asked for. *)
Example load_of_text_value :
  let r := _load_state
             (fun _ => Ok (JDict [("last_processed_block", JStr "5")]))
             (mkLoadEnv false (fun _ => Raise ConnectionError))
             (initial_world (Some "{...}")) in
  fst r = Ok (LoadedOther (JDict [("last_processed_block", JStr "5")])) /\
  log (snd r) = [InfoStateLoadedValue (JStr "5")].
Proof. split; reflexivity. Qed.

End BridgeFacts.


(** * More on the sighting probability and the safety rating *)

Module AnimalExtra.
Import AnimalSighting SafetyChecker AnimalViews AnimalSightingFacts.
Local Open Scope Z_scope.
Local Open Scope string_scope.

(** ** Normalising a name: [name.lower().strip()] *)

Lemma isspace_lower_char (c : ascii) : isspace (lower_char c) = isspace c.
Proof. destruct c as [[] [] [] [] [] [] [] []]; reflexivity. Qed.

Lemma lower_char_idem (c : ascii) : lower_char (lower_char c) = lower_char c.
Proof. destruct c as [[] [] [] [] [] [] [] []]; reflexivity. Qed.

Lemma lower_app (a b : string) : lower (a ++ b) = lower a ++ lower b.
Proof. induction a as [|c a IH]; simpl; [reflexivity | by rewrite IH]. Qed.

Lemma lower_idem (s : string) : lower (lower s) = lower s.
Proof.
  induction s as [|c s IH]; simpl; [reflexivity|].
  by rewrite lower_char_idem, IH.
Qed.

Lemma all_space_lower (p : string) : all_space (lower p) = all_space p.
Proof.
  induction p as [|c p IH]; simpl; [reflexivity|].
  by rewrite isspace_lower_char, IH.
Qed.

Lemma lower_lstrip (s : string) : lower (lstrip s) = lstrip (lower s).
Proof.
  induction s as [|c s IH]; simpl; [reflexivity|].
  rewrite isspace_lower_char. destruct (isspace c); [exact IH | reflexivity].
Qed.

Lemma lower_rstrip (s : string) : lower (rstrip s) = rstrip (lower s).
Proof.
  induction s as [|c s IH]; simpl; [reflexivity|].
  rewrite <- IH, isspace_lower_char.
  destruct (rstrip s); simpl; [by destruct (isspace c) | reflexivity].
Qed.

Lemma lstrip_all_space (p : string) :
  all_space p = true -> lstrip p = EmptyString.
Proof.
  induction p as [|c p IH]; simpl; [reflexivity|].
  intros [Hc Hp]%andb_prop. rewrite Hc. auto.
Qed.

Lemma rstrip_all_space (p : string) :
  all_space p = true -> rstrip p = EmptyString.
Proof.
  induction p as [|c p IH]; simpl; [reflexivity|].
  intros [Hc Hp]%andb_prop. rewrite (IH Hp), Hc. reflexivity.
Qed.

Lemma lstrip_space_app (p t : string) :
  all_space p = true -> lstrip (p ++ t) = lstrip t.
Proof.
  induction p as [|c p IH]; simpl; [reflexivity|].
  intros [Hc Hp]%andb_prop. rewrite Hc. auto.
Qed.

Lemma rstrip_app_space (t p : string) :
  all_space p = true -> rstrip (t ++ p) = rstrip t.
Proof.
  intros Hp. induction t as [|c t IH]; simpl.
  - by apply rstrip_all_space.
  - by rewrite IH.
Qed.

Lemma lstrip_app (t p : string) :
  lstrip (t ++ p)
  = match lstrip t with
    | EmptyString => lstrip p
    | r => r ++ p
    end.
Proof.
  induction t as [|c t IH]; simpl; [reflexivity|].
  destruct (isspace c); [exact IH | reflexivity].
Qed.

Lemma strip_padding (p1 t p2 : string) :
  all_space p1 = true -> all_space p2 = true ->
  strip (p1 ++ t ++ p2) = strip t.
Proof.
  intros H1 H2. unfold strip.
  rewrite (lstrip_space_app _ _ H1), lstrip_app.
  destruct (lstrip t) as [|c r] eqn:Ht.
  - by rewrite (lstrip_all_space _ H2).
  - by apply rstrip_app_space.
Qed.

Lemma rstrip_idem (s : string) : rstrip (rstrip s) = rstrip s.
Proof.
  induction s as [|c s IH]; simpl; [reflexivity|].
  destruct (rstrip s) as [|d r] eqn:Hr.
  - destruct (isspace c) eqn:Hc; simpl; [reflexivity | by rewrite Hc].
  - simpl in IH |- *. by rewrite IH.
Qed.

Lemma lstrip_rstrip_lstrip (s : string) :
  lstrip (rstrip (lstrip s)) = rstrip (lstrip s).
Proof.
  induction s as [|c s IH]; simpl; [reflexivity|].
  destruct (isspace c) eqn:Hc; [exact IH|].
  simpl. destruct (rstrip s); simpl; rewrite ?Hc; simpl; by rewrite ?Hc.
Qed.

Lemma strip_idem (s : string) : strip (strip s) = strip s.
Proof.
  unfold strip. by rewrite lstrip_rstrip_lstrip, rstrip_idem.
Qed.

Lemma animal_key_idem (s : string) :
  animal_key_of (animal_key_of s) = animal_key_of s.
Proof.
  unfold animal_key_of, strip.
  rewrite lower_rstrip, lower_lstrip, lower_idem.
  apply strip_idem.
Qed.

Lemma animal_key_padding (p1 s p2 : string) :
  all_space p1 = true -> all_space p2 = true ->
  animal_key_of (p1 ++ s ++ p2) = animal_key_of s.
Proof.
  intros H1 H2. unfold animal_key_of. rewrite !lower_app.
  apply strip_padding; by rewrite all_space_lower.
Qed.

Lemma animal_key_lower (s : string) :
  animal_key_of (lower s) = animal_key_of s.
Proof. unfold animal_key_of. by rewrite lower_idem. Qed.

(** ** The two lookups *)

(** X1: the sighting probability depends on the name only through
    [name.lower().strip()]: whitespace around the name and the case of
    its letters do not matter, and normalising a name that is already
    normal changes nothing. *)
Theorem sighting_ignores_case_and_padding (p1 s p2 : string)
    (weather : weather_arg) :
  all_space p1 = true -> all_space p2 = true ->
  get_sighting_probability (p1 ++ s ++ p2) weather
  = get_sighting_probability s weather /\
  get_sighting_probability (lower s) weather
  = get_sighting_probability s weather /\
  get_sighting_probability (animal_key_of s) weather
  = get_sighting_probability s weather.
Proof.
  intros H1 H2. unfold get_sighting_probability.
  by rewrite (animal_key_padding _ _ _ H1 H2), animal_key_idem,
    animal_key_lower.
Qed.

Lemma sighting_ignores_case_and_padding_witness :
  get_sighting_probability ("  " ++ "Lion" ++ " ") (Member NIGHT)
  = get_sighting_probability "Lion" (Member NIGHT).
Proof.
  exact (proj1 (sighting_ignores_case_and_padding "  " "Lion" " "
                  (Member NIGHT) eq_refl eq_refl)).
Defined.

(** X2: the safety rating depends on the name only through
    [name.lower().strip()]: whitespace around the name and the case of
    its letters do not matter. *)
Theorem safety_rating_ignores_case_and_padding (p1 s p2 : string) :
  all_space p1 = true -> all_space p2 = true ->
  get_animal_safety_rating (p1 ++ s ++ p2) = get_animal_safety_rating s /\
  get_animal_safety_rating (lower s) = get_animal_safety_rating s /\
  get_animal_safety_rating (strip (lower s)) = get_animal_safety_rating s.
Proof.
  intros H1 H2. unfold get_animal_safety_rating.
  pose proof (animal_key_padding _ s _ H1 H2) as Hpad.
  pose proof (animal_key_idem s) as Hidem.
  pose proof (animal_key_lower s) as Hlow.
  unfold animal_key_of in Hpad, Hidem, Hlow.
  by rewrite Hpad, Hidem, Hlow.
Qed.

Lemma safety_rating_ignores_case_and_padding_witness :
  get_animal_safety_rating (" " ++ "RHINO" ++ "  ")
  = get_animal_safety_rating "RHINO".
Proof.
  exact (proj1 (safety_rating_ignores_case_and_padding " " "RHINO" "  "
                  eq_refl eq_refl)).
Defined.

(** X3: the safety rating is always one of the four levels, and it is
    "Unknown" exactly when the normalised name is not in the table. *)
Theorem safety_rating_levels (animal_name : string) :
  In (get_animal_safety_rating animal_name)
     [SAFETY_LEVEL_SAFE; SAFETY_LEVEL_CAUTION; SAFETY_LEVEL_DANGEROUS;
      SAFETY_LEVEL_UNKNOWN] /\
  (get_animal_safety_rating animal_name = SAFETY_LEVEL_UNKNOWN <->
   _ANIMAL_SAFETY_RATINGS !! strip (lower animal_name) = None).
Proof.
  unfold get_animal_safety_rating.
  destruct (_ANIMAL_SAFETY_RATINGS !! strip (lower animal_name))
    as [v|] eqn:Hv; simpl.
  2:{ split; [by do 3 right; left | done]. }
  apply elem_of_list_to_map_2 in Hv.
  assert (Hlevel : v = SAFETY_LEVEL_SAFE \/ v = SAFETY_LEVEL_CAUTION \/
                   v = SAFETY_LEVEL_DANGEROUS).
  { repeat (apply elem_of_cons in Hv as [Hv|Hv];
            [injection Hv as _ Hl; rewrite Hl; auto|]).
    by apply elem_of_nil in Hv. }
  split.
  - destruct Hlevel as [-> | [-> | ->] ]; simpl; auto.
  - split; [|discriminate].
    destruct Hlevel as [-> | [-> | ->] ]; discriminate.
Qed.

Lemma base_probability_known (k : string) (b : Z) :
  BASE_PROBABILITIES !! k = Some b ->
  In (k, b) [("lion", 30); ("elephant", 60); ("giraffe", 55); ("zebra", 70);
             ("rhino", 15); ("leopard", 10); ("hippo", 40)].
Proof.
  intros Hb. apply elem_of_list_to_map_2 in Hb. by apply list_elem_of_In.
Qed.

Lemma modifier_of_cases (k : string) (weather : weather_arg) :
  modifier_of k weather = 0 \/
  exists w, modifier_of k weather = default 0 (WEATHER_MODIFIERS w !! k).
Proof.
  unfold modifier_of. destruct (WeatherCondition_of weather) as [w|]; eauto.
Qed.

Lemma known_final_range (k : string) (b : Z) (weather : weather_arg) :
  BASE_PROBABILITIES !! k = Some b ->
  2 <= b + modifier_of k weather <= 70.
Proof.
  intros Hb%base_probability_known.
  repeat (destruct Hb as [[= <- <-]|Hb];
          [match goal with
           | |- context [modifier_of ?k weather] =>
               destruct (modifier_of_cases k weather) as [->|([] & ->)]
           end;
           vm_compute; split; intro; discriminate|]).
  destruct Hb.
Qed.

Lemma percent_strictly_inside (n : Z) :
  1 <= n <= 99 -> strictly_inside_unit (percent_to_float n) = true.
Proof.
  intros Hn.
  assert (Hall : forallb (fun k => strictly_inside_unit (percent_to_float k))
                   (List.map Z.of_nat (seq 1 99)) = true)
    by (vm_compute; reflexivity).
  rewrite forallb_forall in Hall. apply Hall, in_map_iff.
  exists (Z.to_nat n). split; [lia|]. apply in_seq. lia.
Qed.

(** X4: for an animal of the table the clamp never cuts: whatever the
    weather argument, base plus modifier lies between 2 and 70, the
    result is that percentage, and it is strictly between 0.0 and 1.0. *)
Theorem known_animal_probability_never_clamped (animal_name : string)
    (weather : weather_arg) (base_prob : Z) :
  BASE_PROBABILITIES !! animal_key_of animal_name = Some base_prob ->
  let final_prob :=
    base_prob + modifier_of (animal_key_of animal_name) weather in
  2 <= final_prob <= 70 /\
  get_sighting_probability animal_name weather = percent_to_float final_prob /\
  strictly_inside_unit (get_sighting_probability animal_name weather) = true.
Proof.
  intros Hb final_prob.
  pose proof (known_final_range _ _ weather Hb) as Hrange.
  fold final_prob in Hrange.
  assert (Hres : get_sighting_probability animal_name weather
                 = percent_to_float final_prob).
  { unfold get_sighting_probability. rewrite Hb. fold final_prob.
    unfold clamp. f_equal. lia. }
  split; [assumption|]. split; [assumption|].
  rewrite Hres. apply percent_strictly_inside. lia.
Qed.

Lemma known_animal_probability_never_clamped_witness :
  get_sighting_probability "Leopard" (Text "sunny") = percent_to_float 2.
Proof.
  exact (proj1 (proj2 (known_animal_probability_never_clamped "Leopard"
                         (Text "sunny") 10 eq_refl))).
Defined.

(** X5: a weather given as the text of a member counts as that member;
    a text that is the value of no member counts as no weather at all. *)
Theorem weather_text_is_member (animal_name : string) (w : WeatherCondition)
    (s : string) :
  get_sighting_probability animal_name (Text (value w))
  = get_sighting_probability animal_name (Member w) /\
  ((forall w', s <> value w') ->
   modifier_of (animal_key_of animal_name) (Text s) = 0).
Proof.
  split.
  - unfold get_sighting_probability, modifier_of.
    by destruct w.
  - intros Hs. unfold modifier_of, WeatherCondition_of.
    destruct (String.eqb_spec s (value SUNNY)); [by destruct (Hs SUNNY)|].
    destruct (String.eqb_spec s (value RAINY)); [by destruct (Hs RAINY)|].
    destruct (String.eqb_spec s (value CLOUDY)); [by destruct (Hs CLOUDY)|].
    destruct (String.eqb_spec s (value NIGHT)); [by destruct (Hs NIGHT)|].
    reflexivity.
Qed.

End AnimalExtra.


(** * More on the listener *)

Module ListenerExtra.
Import Bridge BridgeViews ListenerViews BridgeFacts.
Local Open Scope py_scope.
Local Open Scope list_scope.
Local Set Warnings "-clear-no-such-hyp".

(** ** The cache and the events that can be dispatched *)

Lemma dispatchable_Some chain ev tx :
  dispatchable chain ev = Some tx ->
  exists a amt rcp nce,
    transactionHash ev = Some tx /\ args ev = Some a /\
    destinationChainId a = Some chain /\ amount a = Some amt /\
    recipient a = Some rcp /\ nonce a = Some nce.
Proof.
  unfold dispatchable.
  destruct (transactionHash ev) as [tx'|]; [|discriminate].
  destruct (args ev) as [a|]; [|discriminate].
  destruct (destinationChainId a) as [c|] eqn:Hc; [|discriminate].
  destruct (amount a) as [amt|] eqn:Hamt; [|discriminate].
  destruct (recipient a) as [rcp|] eqn:Hrcp; [|discriminate].
  destruct (nonce a) as [nce|] eqn:Hnce; [|discriminate].
  destruct (Z.eqb_spec c chain) as [->|]; [|discriminate].
  intros [= ->]. by exists a, amt, rcp, nce.
Qed.

Lemma grows_refl w : grows w w.
Proof. exists []. rewrite app_nil_r. split; [done | set_solver]. Qed.

Lemma grows_trans w1 w2 w3 : grows w1 w2 -> grows w2 w3 -> grows w1 w3.
Proof.
  intros (rs1 & Hl1 & Hc1) (rs2 & Hl2 & Hc2). exists (rs1 ++ rs2). split.
  - by rewrite Hl2, Hl1, app_assoc.
  - rewrite Hc2, Hc1, dispatched_app, list_to_set_app_L. set_solver.
Qed.

Lemma grows_emit rs w : dispatched rs = [] -> grows w (emit rs w).
Proof.
  intros Hd. exists rs. split; [done|]. simpl. rewrite Hd. set_solver.
Qed.

Lemma grows_quiet w w' rs :
  log w' = log w ++ rs -> dispatched rs = [] ->
  processed_events w' = processed_events w -> grows w w'.
Proof.
  intros Hl Hd Hc. exists rs. split; [done|]. rewrite Hc, Hd. set_solver.
Qed.

Lemma handled_grows chain ev w o w' : handled chain ev w o w' -> grows w w'.
Proof.
  destruct 1 as [tx Htx Hin|tx a c Htx Hnin Ha Hc Hne
                |tx a amt rcp nce Htx Hnin Ha Hc Hamt Hrcp Hnce
                |e rs Hb Hd Ho Hfresh].
  - by apply grows_emit.
  - by apply grows_emit.
  - eexists. split; [reflexivity|]. simpl. set_solver.
  - apply grows_emit. by rewrite dispatched_app, Hd.
Qed.

(** The cache after one event: what it was, plus the id of the event
    when the event can be dispatched. *)
Lemma handled_cache chain ev w o w' :
  handled chain ev w o w' ->
  processed_events w'
  = processed_events w ∪ dispatchable_ids chain [ev].
Proof.
  unfold dispatchable_ids. simpl.
  destruct 1 as [tx Htx Hin|tx a c Htx Hnin Ha Hc Hne
                |tx a amt rcp nce Htx Hnin Ha Hc Hamt Hrcp Hnce
                |e rs Hb Hd Ho Hfresh]; simpl.
  - destruct (dispatchable chain ev) as [tx'|] eqn:Hdisp; [|set_solver].
    destruct (dispatchable_Some _ _ _ Hdisp) as (? & ? & ? & ? & Htx' & _).
    rewrite Htx in Htx'. injection Htx' as <-. set_solver.
  - unfold dispatchable. rewrite Htx, Ha, Hc.
    destruct (Z.eqb_spec c chain); [contradiction|].
    destruct (amount a), (recipient a), (nonce a); set_solver.
  - unfold dispatchable. rewrite Htx, Ha, Hc, Hamt, Hrcp, Hnce, Z.eqb_refl.
    set_solver.
  - destruct (dispatchable chain ev) as [tx|] eqn:Hdisp; [|set_solver].
    exfalso.
    destruct (dispatchable_Some _ _ _ Hdisp)
      as (a & amt & rcp & nce & Htx & Ha & Hc & Hamt & Hrcp & Hnce).
    pose proof (process_event_failed _ _ _ _ _ Hb) as Hfail.
    rewrite (process_event_dispatch _ _ _ _ _ _ _ _ Htx (Hfresh _ Htx)
               Ha Hc Hamt Hrcp Hnce) in Hfail.
    apply (f_equal (fun p => log (snd p))) in Hfail. simpl in Hfail.
    rename Hfail into Hlog.
    rewrite <- app_assoc in Hlog. apply app_inv_head in Hlog.
    change [InfoProcessingEvent tx; InfoActionRequired chain;
            InfoMintUnlock amt rcp; InfoSourceTx tx nce]
      with ([InfoProcessingEvent tx; InfoActionRequired chain;
             InfoMintUnlock amt rcp] ++ [InfoSourceTx tx nce]) in Hlog.
    apply app_inj_tail in Hlog as [_ Hlast]. discriminate.
Qed.

(** Everything a batch does. *)
Lemma batch_full chain evs w :
  exists w' rs,
    for_each evs (process_event chain) w = (Ok tt, w') /\
    w' = mkWorld (log w ++ rs)
           (processed_events w ∪ dispatchable_ids chain evs)
           (last_processed_block w) (state_file w) /\
    fetched rs = [] /\
    processed_events w' = processed_events w ∪ list_to_set (dispatched rs).
Proof.
  destruct (for_each_inv (process_event chain)
              (fun done w' => exists rs,
                 w' = mkWorld (log w ++ rs)
                        (processed_events w ∪ dispatchable_ids chain done)
                        (last_processed_block w) (state_file w) /\
                 fetched rs = [] /\
                 processed_events w'
                 = processed_events w ∪ list_to_set (dispatched rs)) evs)
    with (w := w) as (w' & Hrun & rs & Hw & Hf & Hg).
  - intros done ev rest w1 _ (rs & Hw1 & Hf & Hg).
    destruct (process_event_handled chain ev w1) as (o & w2 & Hp & Hh).
    exists w2. split; [assumption|].
    destruct (handled_grows _ _ _ _ _ Hh) as (rs2 & Hl2 & Hc2).
    pose proof (handled_cache _ _ _ _ _ Hh) as Hcache.
    destruct (handled_step _ _ _ _ _ Hh) as [Hb2 Hfile2 Hfet2 _ _].
    exists (rs ++ rs2). split; [|split].
    + destruct w2 as [l2 c2 b2 f2]. simpl in *. subst w1. simpl in *.
      f_equal; [by rewrite Hl2, app_assoc | | done | done].
      rewrite Hcache. unfold dispatchable_ids.
      rewrite omap_app, list_to_set_app_L. set_solver.
    + rewrite fetched_app, Hf. simpl.
      rewrite Hl2, fetched_app in Hfet2.
      apply (f_equal (@List.length _)) in Hfet2.
      rewrite length_app in Hfet2.
      destruct (fetched rs2); [done | simpl in Hfet2; lia].
    + rewrite Hc2, Hg, dispatched_app, list_to_set_app_L. set_solver.
  - exists []. rewrite app_nil_r. destruct w; simpl.
    unfold dispatchable_ids. simpl.
    split; [f_equal; set_solver|]. split; [done | set_solver].
  - by exists w', rs.
Qed.

(** ** One chunk and the loop over the chunks *)

Lemma process_chunk_full cfg env latest b w :
  let to_block := Z.min (b + chunk_size cfg - 1) latest in
  exists rs,
    process_chunk cfg env latest b w
    = (Ok tt,
       mkWorld (log w ++ rs)
         (processed_events w
          ∪ dispatchable_ids (destination_chain_id cfg)
              (window_events cfg env latest b))
         to_block
         (file_after_save (disk env to_block)
            (mkWorld [] ∅ to_block (state_file w)))) /\
    fetched rs = [(b, to_block)] /\
    list_to_set (dispatched rs) ∪ processed_events w
    = processed_events w
      ∪ dispatchable_ids (destination_chain_id cfg)
          (window_events cfg env latest b).
Proof.
  intros to_block. unfold process_chunk, bind, window_events.
  fold to_block.
  destruct (fetch_events_effect (entries env) b to_block w)
    as (rs1 & -> & Hf1 & Hd1).
  destruct (batch_full (destination_chain_id cfg)
              (events_of (entries env b to_block))
              (emit (DebugFetching b to_block :: rs1) w))
    as (w1 & rs2 & -> & -> & Hf2 & Hg).
  unfold set_last_processed_block at 1. simpl.
  match goal with |- context [_save_state ?f ?w0] =>
    destruct (save_state_effect f w0) as (rs3 & -> & Hf3 & Hd3 & _) end.
  simpl in *.
  exists ((DebugFetching b to_block :: rs1) ++ rs2 ++ rs3).
  split; [|split].
  - do 2 f_equal; simpl; rewrite <- ?app_assoc; try reflexivity.
    all: unfold file_after_save; by destruct (disk env to_block).
  - rewrite !fetched_app, Hf2, Hf3, app_nil_r. simpl. by rewrite Hf1.
  - rewrite !dispatched_app, Hd3, app_nil_r. simpl. rewrite Hd1. simpl.
    rewrite Hg. set_solver.
Qed.

Lemma healthy_chunk_synced cfg env latest b w w' :
  healthy_disk env ->
  process_chunk cfg env latest b w = (Ok tt, w') ->
  synced w'.
Proof.
  intros Hdisk Hrun.
  destruct (process_chunk_full cfg env latest b w) as (rs & Hfull & _).
  rewrite Hfull in Hrun. injection Hrun as <-.
  unfold synced. simpl. by rewrite Hdisk.
Qed.

(** Everything the loop over the chunks does. *)
Lemma chunk_loop_full cfg env latest blocks w :
  exists w' rs,
    for_each blocks (process_chunk cfg env latest) w = (Ok tt, w') /\
    log w' = log w ++ rs /\
    processed_events w'
    = processed_events w
      ∪ dispatchable_ids (destination_chain_id cfg)
          (flat_map (window_events cfg env latest) blocks) /\
    processed_events w'
    = processed_events w ∪ list_to_set (dispatched rs) /\
    (healthy_disk env -> synced w \/ blocks <> [] -> synced w').
Proof.
  destruct (for_each_inv (process_chunk cfg env latest)
              (fun done w' => exists rs,
                 log w' = log w ++ rs /\
                 processed_events w'
                 = processed_events w
                   ∪ dispatchable_ids (destination_chain_id cfg)
                       (flat_map (window_events cfg env latest) done) /\
                 processed_events w'
                 = processed_events w ∪ list_to_set (dispatched rs) /\
                 (healthy_disk env -> synced w \/ done <> [] -> synced w'))
              blocks) with (w := w) as (w' & Hrun & rs & H).
  - intros done b rest w1 _ (rs & Hl & Hc & Hg & Hs).
    destruct (process_chunk_full cfg env latest b w1) as (rs2 & Hrun & _ & Hd).
    eexists. split; [exact Hrun|]. exists (rs ++ rs2). simpl.
    split; [by rewrite Hl, app_assoc|]. split; [|split].
    + rewrite Hc. unfold dispatchable_ids.
      rewrite flat_map_app, omap_app, list_to_set_app_L. simpl.
      rewrite app_nil_r. set_solver.
    + rewrite dispatched_app, list_to_set_app_L, <- Hd, Hg. set_solver.
    + intros Hdisk _. eapply healthy_chunk_synced; eassumption.
  - exists []. rewrite app_nil_r. unfold dispatchable_ids. simpl.
    split; [done|]. split; [set_solver|]. split; [set_solver|].
    intros _ [Hs|Hne]; [assumption | contradiction].
  - by exists w', rs.
Qed.

(** ** The ways a cycle goes *)

(** The cycles that do nothing: the height query fails, there is no new
    block, or the chunk width is zero. *)
Lemma run_cycle_idle cfg env w :
  match block_number env with
  | Raise e => _run_cycle cfg env w = (Ok tt, emit [cycle_error e] w)
  | Ok latest =>
      if last_processed_block w + 1 >? latest then
        _run_cycle cfg env w = (Ok tt, emit [DebugNoNewBlocks latest] w)
      else if chunk_size cfg =? 0 then
        _run_cycle cfg env w
        = (Ok tt,
           emit [InfoProcessingBlocks (last_processed_block w + 1) latest;
                 ErrorCycle ValueError] w)
      else
        _run_cycle cfg env w
        = for_each (cycle_blocks cfg w latest) (process_chunk cfg env latest)
            (emit [InfoProcessingBlocks (last_processed_block w + 1) latest] w)
  end.
Proof.
  unfold _run_cycle, run_cycle_body, try_except, bind, lift, cycle_error.
  destruct (block_number env) as [latest|e]; simpl.
  2:{ by destruct (is_ConnectionError e). }
  destruct (last_processed_block w + 1 >? latest); [reflexivity|].
  simpl. unfold py_range.
  destruct (chunk_size cfg =? 0); simpl.
  { unfold emit, logger; simpl. rewrite <- ?app_assoc. reflexivity. }
  match goal with |- context [for_each ?bl ?body ?w0] =>
    destruct (chunk_loop_full cfg env latest bl w0) as (w1 & rs & Hrun & _)
  end.
  unfold cycle_blocks, emit. simpl in *. by rewrite Hrun.
Qed.

Lemma windows_blocks cfg w latest :
  chunk_size cfg <> 0 ->
  last_processed_block w + 1 <= latest ->
  windows (chunk_size cfg) (last_processed_block w + 1) latest
  = List.map (window (chunk_size cfg) latest) (cycle_blocks cfg w latest).
Proof.
  intros HW Hle. unfold windows, py_range, cycle_blocks.
  destruct (Z.gtb_spec (last_processed_block w + 1) latest); [lia|].
  destruct (Z.eqb_spec (chunk_size cfg) 0); [contradiction | reflexivity].
Qed.

(** Everything a cycle does to the log, the cache and the file. *)
Lemma run_cycle_full cfg env w :
  exists w' rs,
    _run_cycle cfg env w = (Ok tt, w') /\
    log w' = log w ++ rs /\
    processed_events w'
    = processed_events w ∪ list_to_set (dispatched rs) /\
    (healthy_disk env ->
     synced w \/ last_processed_block w' <> last_processed_block w ->
     synced w') /\
    (forall latest,
       block_number env = Ok latest ->
       chunk_size cfg <> 0 ->
       last_processed_block w + 1 <= latest ->
       processed_events w'
       = processed_events w
         ∪ dispatchable_ids (destination_chain_id cfg)
             (flat_map (window_events cfg env latest)
                (cycle_blocks cfg w latest))).
Proof.
  pose proof (run_cycle_idle cfg env w) as Hcase.
  pose proof (run_cycle_checkpoint cfg env w) as Hcp.
  assert (Hidle : forall rs,
            _run_cycle cfg env w = (Ok tt, emit rs w) ->
            dispatched rs = [] ->
            (forall latest, block_number env = Ok latest ->
               chunk_size cfg <> 0 ->
               last_processed_block w + 1 <= latest -> False) ->
            exists w' rs0,
              _run_cycle cfg env w = (Ok tt, w') /\
              log w' = log w ++ rs0 /\
              processed_events w'
              = processed_events w ∪ list_to_set (dispatched rs0) /\
              (healthy_disk env ->
               synced w \/ last_processed_block w' <> last_processed_block w ->
               synced w') /\
              (forall latest,
                 block_number env = Ok latest ->
                 chunk_size cfg <> 0 ->
                 last_processed_block w + 1 <= latest ->
                 processed_events w'
                 = processed_events w
                   ∪ dispatchable_ids (destination_chain_id cfg)
                       (flat_map (window_events cfg env latest)
                          (cycle_blocks cfg w latest)))).
  { intros rs Hrun Hd Hno. exists (emit rs w), rs.
    split; [assumption|]. split; [reflexivity|]. simpl.
    split; [rewrite Hd; set_solver|]. split.
    - intros _ [Hs|Hne]; [exact Hs | contradiction].
    - intros latest Hl HW Hle. destruct (Hno latest Hl HW Hle). }
  destruct (block_number env) as [latest|e] eqn:Hl.
  2:{ apply (Hidle _ Hcase); [by unfold cycle_error; destruct (is_ConnectionError e)|].
      discriminate. }
  destruct (Z.gtb_spec (last_processed_block w + 1) latest) as [Hgt|Hle].
  { apply (Hidle _ Hcase); [reflexivity|]. intros ? [= <-] _ ?. lia. }
  destruct (Z.eqb_spec (chunk_size cfg) 0) as [HW|HW].
  { apply (Hidle _ Hcase); [reflexivity|]. intros ? _ ?. contradiction. }
  destruct (chunk_loop_full cfg env latest (cycle_blocks cfg w latest)
              (emit [InfoProcessingBlocks (last_processed_block w + 1) latest] w))
    as (w' & rs & Hrun & Hlog & Hc & Hg & Hs).
  rewrite Hrun in Hcase. simpl in *.
  exists w', (InfoProcessingBlocks (last_processed_block w + 1) latest :: rs).
  split; [assumption|]. split; [by rewrite Hlog, <- app_assoc|].
  split; [exact Hg|]. split.
  - intros Hdisk Hor. apply Hs; [assumption|].
    destruct Hor as [Hsync|Hne]; [by left | right].
    intros Hnil. apply Hne. unfold exec in Hcp. rewrite Hcase in Hcp.
    simpl in Hcp. rewrite Hnil in Hrun. simpl in Hrun.
    injection Hrun as <-. reflexivity.
  - intros latest' [= <-] _ _. exact Hc.
Qed.

(** ** Windows that follow one another *)

Lemma tiles_ladder W a b ws :
  0 < W -> tiles W a b ws -> ladder (a - 1) ws b.
Proof.
  intros HW. induction 1 as [a b Hab Hw|a b ws Hlt Ht IH].
  - replace a with (a - 1 + 1) at 2 by lia.
    apply ladder_cons; [lia | constructor].
  - replace (a, a + W - 1) with (a - 1 + 1, a + W - 1) by (f_equal; lia).
    apply ladder_cons; [lia|].
    replace (a + W - 1) with (a + W - 1 + 1 - 1) at 1 by lia.
    replace (a + W - 1 + 1) with (a + W) by lia. exact IH.
Qed.

Lemma ladder_app c1 ws1 c2 ws2 c3 :
  ladder c1 ws1 c2 -> ladder c2 ws2 c3 -> ladder c1 (ws1 ++ ws2) c3.
Proof.
  induction 1 as [c|c hi ws c' Hhi Hl IH]; intros H2; simpl; [assumption|].
  apply ladder_cons; auto.
Qed.

Lemma ladder_le c ws c' : ladder c ws c' -> c <= c'.
Proof. induction 1; lia. Qed.

Lemma ladder_bounds c ws c' :
  ladder c ws c' ->
  forall lo hi, In (lo, hi) ws -> c < lo /\ lo <= hi /\ hi <= c'.
Proof.
  induction 1 as [c|c hi0 ws c' Hhi Hl IH]; intros lo hi Hin; [destruct Hin|].
  pose proof (ladder_le _ _ _ Hl).
  destruct Hin as [[= <- <-]|Hin]; [lia|].
  specialize (IH lo hi Hin). lia.
Qed.

Lemma ladder_cover c ws c' :
  ladder c ws c' ->
  forall h, (exists lo hi, In (lo, hi) ws /\ lo <= h <= hi) <-> c < h <= c'.
Proof.
  intros Hl h. split.
  - intros (lo & hi & Hin & Hh).
    pose proof (ladder_bounds _ _ _ Hl lo hi Hin). lia.
  - induction Hl as [c|c hi0 ws c' Hhi Hl IH]; intros Hh; [lia|].
    destruct (Z_le_gt_dec h hi0) as [Hle|Hgt].
    + exists (c + 1), hi0. split; [by left | lia].
    + destruct IH as (lo & hi & Hin & Hlo); [lia|].
      exists lo, hi. split; [by right | assumption].
Qed.

Lemma ladder_disjoint c ws c' :
  ladder c ws c' ->
  forall i j lo1 hi1 lo2 hi2,
    (i < j)%nat ->
    nth_error ws i = Some (lo1, hi1) ->
    nth_error ws j = Some (lo2, hi2) ->
    hi1 < lo2.
Proof.
  induction 1 as [c|c hi0 ws c' Hhi Hl IH];
    intros i j lo1 hi1 lo2 hi2 Hij H1 H2.
  - by destruct i.
  - destruct j as [|j]; [lia|]. simpl in H2.
    destruct i as [|i]; simpl in H1.
    + injection H1 as <- <-. apply nth_error_In in H2.
      pose proof (ladder_bounds _ _ _ Hl lo2 hi2 H2). lia.
    + apply (IH i j lo1 hi1 lo2 hi2); [lia | assumption..].
Qed.

Lemma run_cycle_ladder cfg env w :
  exists w' ws,
    _run_cycle cfg env w = (Ok tt, w') /\
    fetched (log w') = fetched (log w) ++ ws /\
    ladder (last_processed_block w) ws (last_processed_block w').
Proof.
  destruct (run_cycle_effect cfg env w) as (w' & Hrun & _ & Heff).
  exists w'. destruct (block_number env) as [latest|e].
  - simpl in Heff. destruct Heff as [Hcp Hf].
    exists (windows (chunk_size cfg) (last_processed_block w + 1) latest).
    split; [assumption|]. split; [assumption|]. rewrite Hcp.
    destruct (Z_lt_le_dec 0 (chunk_size cfg)) as [HW|HW];
      [|rewrite windows_none by lia; constructor].
    destruct (Z_lt_le_dec (last_processed_block w) latest) as [Hc|Hc];
      [|rewrite windows_none by lia; constructor].
    assert (Ht : tiles (chunk_size cfg) (last_processed_block w + 1) latest
                   (windows (chunk_size cfg) (last_processed_block w + 1)
                      latest)) by (apply windows_tiles; lia).
    rewrite (tiles_checkpoint _ _ _ _ _ Ht).
    replace (last_processed_block w)
      with (last_processed_block w + 1 - 1) at 1 by lia.
    by apply (tiles_ladder (chunk_size cfg)).
  - destruct Heff as (Hcp & Hf & _). exists [].
    split; [assumption|]. split; [by rewrite app_nil_r|].
    rewrite Hcp. constructor.
Qed.

(** ** Properties of the listener beyond the claims *)

(** X6: [fetch_events] never raises.  It returns the logs of a query
    that succeeds and the empty list for a query that raises, whatever
    the exception; it writes log records and nothing else. *)
Theorem fetch_events_swallows_faults
    (entries : Z -> Z -> result (list Event)) (a b : Z) (w : World) :
  exists rs,
    fetch_events entries a b w
    = (Ok (events_of (entries a b)), emit (DebugFetching a b :: rs) w) /\
    fetched rs = [] /\ dispatched rs = [] /\
    (forall e, entries a b = Raise e ->
       events_of (entries a b) = [] /\
       rs = [match e with
             | BlockNotFound => WarnRangeNotFound a b
             | ReadTimeout => ErrorRpcTimeout a b
             | _ => ErrorFetchUnexpected e
             end]).
Proof.
  unfold fetch_events, bind, ret.
  destruct (entries a b) as [[|ev evs]|e]; simpl.
  - exists []. by repeat split.
  - exists [InfoFound (S (length evs)) a b].
    split; [f_equal; unfold emit, logger; simpl; by rewrite <- app_assoc|].
    by repeat split.
  - exists [match e with
            | BlockNotFound => WarnRangeNotFound a b
            | ReadTimeout => ErrorRpcTimeout a b
            | _ => ErrorFetchUnexpected e
            end].
    split.
    + destruct e; simpl; unfold emit, logger; simpl;
        rewrite <- app_assoc; reflexivity.
    + split; [by destruct e|]. split; [by destruct e|].
      intros e' [= <-]. split; reflexivity.
Qed.

(** X7: after a batch the cache is what it was plus the ids of the
    events of the batch that can be dispatched; so it does not depend on
    the order of the events or on repetitions among them. *)
Theorem batch_cache_is_order_independent (chain : Z)
    (evs evs' : list Event) (w : World) :
  processed_events (exec (for_each evs (process_event chain)) w)
  = processed_events w ∪ dispatchable_ids chain evs /\
  ((forall ev, In ev evs <-> In ev evs') ->
   processed_events (exec (for_each evs (process_event chain)) w)
   = processed_events (exec (for_each evs' (process_event chain)) w)).
Proof.
  assert (Hc : forall l,
            processed_events (exec (for_each l (process_event chain)) w)
            = processed_events w ∪ dispatchable_ids chain l).
  { intros l. destruct (batch_full chain l w) as (w' & rs & Hrun & -> & _).
    unfold exec. by rewrite Hrun. }
  split; [apply Hc|]. intros Hsame. rewrite !Hc. f_equal.
  unfold dispatchable_ids. apply set_eq. intros tx.
  rewrite !elem_of_list_to_set, !list_elem_of_omap.
  split; intros (ev & Hin & Hd); exists ev; (split; [|assumption]);
    apply list_elem_of_In, Hsame, list_elem_of_In, Hin.
Qed.

(** X8: over any number of cycles the cache grows exactly by the
    transactions whose action was completed in between; started from the
    empty cache, it is the set of the dispatched transactions. *)
Theorem cache_is_the_set_of_dispatched (cfg : Config)
    (envs : list CycleEnv) (w : World) (file : option string) :
  (exists rs,
     log (exec (run_cycles cfg envs) w) = log w ++ rs /\
     processed_events (exec (run_cycles cfg envs) w)
     = processed_events w ∪ list_to_set (dispatched rs)) /\
  (forall tx,
     tx ∈ processed_events (exec (run_cycles cfg envs) (initial_world file))
     <-> In tx (dispatched
                  (log (exec (run_cycles cfg envs) (initial_world file))))).
Proof.
  assert (Hg : forall w0, exists w',
            run_cycles cfg envs w0 = (Ok tt, w') /\ grows w0 w').
  { intros w0. apply (for_each_total (_run_cycle cfg) (grows w0));
      [|apply grows_refl].
    intros env w1 _ Hg1.
    destruct (run_cycle_full cfg env w1) as (w2 & rs & Hrun & Hl & Hc & _).
    exists w2. split; [assumption|].
    eapply grows_trans; [exact Hg1|]. by exists rs. }
  split.
  - destruct (Hg w) as (w' & Hrun & Hgrow).
    unfold exec. rewrite Hrun. exact Hgrow.
  - intros tx. destruct (Hg (initial_world file)) as (w' & Hrun & rs & Hl & Hc).
    unfold exec. rewrite Hrun. simpl in *. rewrite Hc, Hl. simpl.
    rewrite elem_of_union, elem_of_list_to_set, list_elem_of_In.
    set_solver.
Qed.

(** X9: no transaction of a successful fetch is lost.  For every event
    that the chain returns for a window of the cycle and that can be
    dispatched, the transaction hash of the event is in the cache when
    the cycle ends: the hash was there already, or an action for that
    hash was completed in this cycle.  This speaks of the transaction,
    not of the single event: the completed action may be that of another
    event with the same hash. *)
Theorem fetched_transaction_reaches_the_cache cfg env w latest lo hi evs ev tx :
  block_number env = Ok latest ->
  0 < chunk_size cfg ->
  In (lo, hi) (windows (chunk_size cfg) (last_processed_block w + 1) latest) ->
  entries env lo hi = Ok evs ->
  In ev evs ->
  dispatchable (destination_chain_id cfg) ev = Some tx ->
  let w' := exec (_run_cycle cfg env) w in
  tx ∈ processed_events w' /\
  (tx ∈ processed_events w \/
   exists rs, log w' = log w ++ rs /\ In tx (dispatched rs)).
Proof.
  intros Hl HW Hwin Hev Hin Hd w'.
  assert (Hle : last_processed_block w + 1 <= latest).
  { destruct (Z_le_gt_dec (last_processed_block w + 1) latest); [done|].
    rewrite windows_none in Hwin by lia. destruct Hwin. }
  destruct (run_cycle_full cfg env w) as (w1 & rs & Hrun & Hlog & Hg & _ & Hc).
  assert (Hw' : w' = w1) by (unfold w', exec; by rewrite Hrun).
  rewrite Hw'. specialize (Hc latest Hl ltac:(lia) Hle).
  assert (Htx : tx ∈ processed_events w1).
  { rewrite Hc. apply elem_of_union_r. unfold dispatchable_ids.
    rewrite elem_of_list_to_set, list_elem_of_omap. exists ev.
    split; [|assumption]. apply list_elem_of_In, in_flat_map.
    rewrite windows_blocks in Hwin by lia.
    apply in_map_iff in Hwin as (b & Hb & Hbin). exists b.
    split; [assumption|]. unfold window in Hb. injection Hb as <- <-.
    unfold window_events. by rewrite Hev. }
  split; [assumption|].
  rewrite Hg in Htx. apply elem_of_union in Htx as [Hold|Hnew]; [by left|].
  right. exists rs. split; [assumption|].
  apply elem_of_list_to_set in Hnew. by apply list_elem_of_In.
Qed.

(** X10: over any number of cycles the windows asked of the chain follow
    one another without gap or overlap from the checkpoint at the start
    to the checkpoint at the end: every height in between is asked for
    exactly once, and no other height is. *)
Theorem lifetime_windows_tile_the_progress (cfg : Config)
    (envs : list CycleEnv) (w : World) :
  let w' := exec (run_cycles cfg envs) w in
  exists ws,
    fetched (log w') = fetched (log w) ++ ws /\
    (forall h,
       (exists lo hi, In (lo, hi) ws /\ lo <= h <= hi)
       <-> last_processed_block w < h <= last_processed_block w') /\
    (forall i j lo1 hi1 lo2 hi2,
       (i < j)%nat ->
       nth_error ws i = Some (lo1, hi1) ->
       nth_error ws j = Some (lo2, hi2) ->
       lo1 <= hi1 /\ hi1 < lo2).
Proof.
  intros w'.
  destruct (for_each_total (_run_cycle cfg)
              (fun w1 => exists ws,
                 fetched (log w1) = fetched (log w) ++ ws /\
                 ladder (last_processed_block w) ws (last_processed_block w1))
              envs) with (w := w) as (w1 & Hrun & ws & Hf & Hlad).
  - intros env w1 _ (ws & Hf & Hlad).
    destruct (run_cycle_ladder cfg env w1) as (w2 & ws2 & Hrun & Hf2 & Hlad2).
    exists w2. split; [assumption|]. exists (ws ++ ws2). split.
    + by rewrite Hf2, Hf, app_assoc.
    + eapply ladder_app; eassumption.
  - exists []. split; [by rewrite app_nil_r | constructor].
  - assert (Hw' : w' = w1) by (unfold w', exec, run_cycles; by rewrite Hrun).
    rewrite Hw'. exists ws. split; [assumption|]. split.
    + by apply ladder_cover.
    + intros i j lo1 hi1 lo2 hi2 Hij H1 H2. split.
      * apply nth_error_In in H1.
        pose proof (ladder_bounds _ _ _ Hlad lo1 hi1 H1). lia.
      * by apply (ladder_disjoint _ _ _ Hlad i j lo1 hi1 lo2 hi2).
Qed.

Lemma fetched_transaction_reaches_the_cache_witness :
  "tx1" ∈ processed_events
            (exec (_run_cycle default_config busy_env) (world_at 200)).
Proof.
  exact (proj1 (fetched_transaction_reaches_the_cache default_config busy_env
                  (world_at 200) 250 201 250
                  [deposit "tx1" DESTINATION_CHAIN_ID]
                  (deposit "tx1" DESTINATION_CHAIN_ID) "tx1"
                  eq_refl eq_refl (or_introl eq_refl) eq_refl
                  (or_introl eq_refl) eq_refl)).
Defined.

(** A cycle that finds the chain at or below the checkpoint. *)
Lemma run_cycle_no_new_blocks cfg env w latest :
  block_number env = Ok latest ->
  latest <= last_processed_block w ->
  _run_cycle cfg env w = (Ok tt, emit [DebugNoNewBlocks latest] w).
Proof.
  intros Hl Hle. pose proof (run_cycle_idle cfg env w) as Hcase.
  rewrite Hl in Hcase.
  destruct (Z.gtb_spec (last_processed_block w + 1) latest); [assumption | lia].
Qed.

(** X11: a cycle that cannot or need not make progress touches nothing
    but the log: when the height query raises, when the chain is not
    above the checkpoint, or when the chunk width is zero, no window is
    asked for, nothing is dispatched or saved, and the cycle returns. *)
Theorem idle_cycle_touches_only_the_log cfg env w :
  match block_number env with
  | Raise _ => True
  | Ok latest => latest <= last_processed_block w \/ chunk_size cfg = 0
  end ->
  exists rs,
    _run_cycle cfg env w = (Ok tt, emit rs w) /\
    fetched rs = [] /\ dispatched rs = [] /\
    (forall e, block_number env = Raise e -> rs = [cycle_error e]) /\
    (forall latest,
       block_number env = Ok latest -> latest <= last_processed_block w ->
       rs = [DebugNoNewBlocks latest]).
Proof.
  intros Hidle. pose proof (run_cycle_idle cfg env w) as Hcase.
  destruct (block_number env) as [latest|e].
  - destruct (Z.gtb_spec (last_processed_block w + 1) latest) as [Hgt|Hle].
    + exists [DebugNoNewBlocks latest]. split; [assumption|].
      split; [done|]. split; [done|]. split; [discriminate|].
      by intros ? [= <-].
    + destruct Hidle as [Hidle|HW]; [lia|].
      rewrite HW in Hcase. simpl in Hcase. eexists. split; [exact Hcase|].
      split; [done|]. split; [done|]. split; [discriminate|].
      intros ? [= <-] ?. lia.
  - exists [cycle_error e]. split; [assumption|].
    unfold cycle_error. split; [by destruct (is_ConnectionError e)|].
    split; [by destruct (is_ConnectionError e)|].
    split; [by intros ? [= <-] | discriminate].
Qed.

Lemma idle_cycle_touches_only_the_log_witness :
  exists rs,
    _run_cycle default_config offline_env (world_at 200)
    = (Ok tt, emit rs (world_at 200)) /\
    fetched rs = [] /\ dispatched rs = [].
Proof.
  destruct (idle_cycle_touches_only_the_log default_config offline_env
              (world_at 200) I) as (rs & Hrun & Hf & Hd & _).
  exists rs. by repeat split.
Defined.

(** X12: a cycle catches up with the chain.  With a positive chunk width
    and a height query that answers, the checkpoint ends at the larger of
    its old value and the height, and a second cycle at the same height
    asks for nothing and leaves the checkpoint there. *)
Theorem cycle_catches_up cfg env env2 w latest :
  0 < chunk_size cfg ->
  block_number env = Ok latest ->
  block_number env2 = Ok latest ->
  let w1 := exec (_run_cycle cfg env) w in
  let w2 := exec (_run_cycle cfg env2) w1 in
  last_processed_block w1 = Z.max (last_processed_block w) latest /\
  last_processed_block w2 = last_processed_block w1 /\
  fetched (log w2) = fetched (log w1).
Proof.
  intros HW Hl Hl2 w1 w2.
  assert (H1 : last_processed_block w1 = Z.max (last_processed_block w) latest).
  { unfold w1. rewrite run_cycle_checkpoint, Hl.
    destruct (Z.ltb_spec 0 (chunk_size cfg)); [|lia]. simpl.
    destruct (Z.ltb_spec (last_processed_block w) latest); lia. }
  split; [assumption|].
  assert (Hrun : _run_cycle cfg env2 w1
                 = (Ok tt, emit [DebugNoNewBlocks latest] w1)).
  { apply run_cycle_no_new_blocks; [assumption | lia]. }
  unfold w2, exec. rewrite Hrun. simpl. split; [reflexivity|].
  by rewrite fetched_app, app_nil_r.
Qed.

Lemma cycle_catches_up_witness :
  last_processed_block (exec (_run_cycle default_config quiet_env) (world_at 200))
  = Z.max (last_processed_block (world_at 200)) 250.
Proof.
  exact (proj1 (cycle_catches_up default_config quiet_env quiet_env
                  (world_at 200) 250 eq_refl eq_refl eq_refl)).
Defined.

(** X13: the progress of a cycle does not depend on what the fetches and
    the saves do.  Two cycles that start from the same checkpoint and get
    the same answer to the height query ask for the same windows and end
    at the same checkpoint, whatever the queries return or raise and
    whether the disk fails or not. *)
Theorem progress_ignores_fetch_and_disk_faults cfg env1 env2 w1 w2 :
  block_number env1 = block_number env2 ->
  last_processed_block w1 = last_processed_block w2 ->
  last_processed_block (exec (_run_cycle cfg env1) w1)
  = last_processed_block (exec (_run_cycle cfg env2) w2) /\
  exists ws,
    fetched (log (exec (_run_cycle cfg env1) w1)) = fetched (log w1) ++ ws /\
    fetched (log (exec (_run_cycle cfg env2) w2)) = fetched (log w2) ++ ws.
Proof.
  intros Hb Hc. split.
  - by rewrite !run_cycle_checkpoint, Hb, Hc.
  - destruct (run_cycle_effect cfg env1 w1) as (w1' & Hrun1 & _ & Heff1).
    destruct (run_cycle_effect cfg env2 w2) as (w2' & Hrun2 & _ & Heff2).
    unfold exec. rewrite Hrun1, Hrun2. simpl. rewrite Hb, Hc in Heff1.
    destruct (block_number env2) as [latest|e].
    + simpl in *. destruct Heff1 as [_ Hf1], Heff2 as [_ Hf2]. eauto.
    + exists []. rewrite !app_nil_r.
      by destruct Heff1 as (_ & ? & _), Heff2 as (_ & ? & _).
Qed.

Lemma progress_ignores_fetch_and_disk_faults_witness :
  last_processed_block
    (exec (_run_cycle default_config timeout_env) (world_at 200))
  = last_processed_block
      (exec (_run_cycle default_config readonly_env) (world_at 200)).
Proof.
  exact (proj1 (progress_ignores_fetch_and_disk_faults default_config
                  timeout_env readonly_env (world_at 200) (world_at 200)
                  eq_refl eq_refl)).
Defined.

(** X14: while the disk works the state file follows the checkpoint.
    Over cycles whose saves all succeed, a state file that holds the
    record of the checkpoint still does afterwards, and whenever such a
    cycle moves the checkpoint the file holds the record of the new
    one. *)
Theorem healthy_disk_keeps_file_in_step cfg envs w :
  (forall env, In env envs -> healthy_disk env) ->
  (synced w -> synced (exec (run_cycles cfg envs) w)) /\
  (forall env w1,
     In env envs ->
     last_processed_block (exec (_run_cycle cfg env) w1)
     <> last_processed_block w1 ->
     synced (exec (_run_cycle cfg env) w1)).
Proof.
  intros Hdisk. split.
  - intros Hs.
    destruct (for_each_total (_run_cycle cfg) synced envs) with (w := w)
      as (w' & Hrun & Hs'); [|assumption|].
    + intros env w1 Hin Hs1.
      destruct (run_cycle_full cfg env w1) as (w2 & rs & Hrun & _ & _ & Hsync & _).
      exists w2. split; [assumption|]. apply Hsync; [by apply Hdisk | by left].
    + unfold exec, run_cycles. by rewrite Hrun.
  - intros env w1 Hin Hne.
    destruct (run_cycle_full cfg env w1) as (w2 & rs & Hrun & _ & _ & Hsync & _).
    unfold exec in *. rewrite Hrun in *. simpl in *.
    apply Hsync; [by apply Hdisk | by right].
Qed.

Lemma healthy_disk_keeps_file_in_step_witness :
  synced (exec (run_cycles default_config [quiet_env; busy_env]) (world_at 200)).
Proof.
  refine (proj1 (healthy_disk_keeps_file_in_step default_config
                   [quiet_env; busy_env] (world_at 200) _) eq_refl).
  intros env [<-|[<-|[]]] b; reflexivity.
Defined.

(** The final save of [run], when it succeeds. *)
Lemma run_clean_stop (cfg : Config) (envs : list CycleEnv) (w : World) :
  state_file (exec (run cfg envs DiskOk) w)
  = Some (json_dumps (last_processed_block (exec (run cfg envs DiskOk) w))).
Proof.
  destruct (run_cycles_returns cfg envs w) as (w' & Hrun & _).
  unfold run, exec, bind. by rewrite Hrun.
Qed.

(** X15: [run] persists the final checkpoint.  When the loop is stopped
    the final save writes the record of the checkpoint the cycles have
    reached, whatever happened to the saves before, and [run] returns;
    if that save cannot open the file, the file stays as the cycles left
    it. *)
Theorem run_persists_final_checkpoint (cfg : Config) (envs : list CycleEnv)
    (w : World) :
  let w1 := exec (run_cycles cfg envs) w in
  fst (run cfg envs DiskOk w) = Ok tt /\
  state_file (exec (run cfg envs DiskOk) w)
  = Some (json_dumps (last_processed_block w1)) /\
  last_processed_block (exec (run cfg envs DiskOk) w)
  = last_processed_block w1 /\
  processed_events (exec (run cfg envs DiskOk) w) = processed_events w1 /\
  fst (run cfg envs OpenFails w) = Ok tt /\
  state_file (exec (run cfg envs OpenFails) w) = state_file w1.
Proof.
  intros w1.
  destruct (run_cycles_returns cfg envs w) as (w' & Hrun & _).
  assert (Hw1 : w1 = w') by (unfold w1, exec; by rewrite Hrun).
  unfold run, exec, bind. rewrite Hrun, Hw1. by repeat split.
Qed.

(** ** The record in the state file *)

Lemma append_inj_l (p s1 s2 : string) :
  (p ++ s1)%string = (p ++ s2)%string -> s1 = s2.
Proof. induction p as [|c p IH]; simpl; [done|]. intros [= H]. auto. Qed.

Lemma string_length_append (s1 s2 : string) :
  String.length (s1 ++ s2)%string
  = (String.length s1 + String.length s2)%nat.
Proof. induction s1 as [|c s1 IH]; simpl; [done | by rewrite IH]. Qed.

Lemma append_inj_r (s1 s2 t : string) :
  (s1 ++ t)%string = (s2 ++ t)%string -> s1 = s2.
Proof.
  revert s2. induction s1 as [|c s1 IH]; intros [|d s2] H.
  - reflexivity.
  - apply (f_equal String.length) in H.
    rewrite !string_length_append in H. simpl in H. lia.
  - apply (f_equal String.length) in H.
    rewrite !string_length_append in H. simpl in H. lia.
  - simpl in H. injection H as -> H. f_equal. by apply IH.
Qed.

Lemma to_int_not_nil (z : Z) :
  Z.to_int z <> Decimal.Pos Decimal.Nil /\
  Z.to_int z <> Decimal.Neg Decimal.Nil.
Proof.
  destruct z; simpl; split; try discriminate;
    intros [= H]; by apply Unsigned.to_uint_nonnil in H.
Qed.

Lemma decimal_inj (a b : Z) :
  NilZero.string_of_int (Z.to_int a) = NilZero.string_of_int (Z.to_int b) ->
  a = b.
Proof.
  intros H. apply DecimalZ.to_int_inj.
  destruct (to_int_not_nil a) as [Ha1 Ha2], (to_int_not_nil b) as [Hb1 Hb2].
  pose proof (NilZero.isi _ Ha1 Ha2) as Hia.
  pose proof (NilZero.isi _ Hb1 Hb2) as Hib.
  rewrite H in Hia. congruence.
Qed.

(** X16: the record written for a checkpoint tells the checkpoint:
    two checkpoints have the same record only when they are equal, and
    no record is the empty text. *)
Theorem json_dumps_tells_the_checkpoint (a b : Z) :
  (json_dumps a = json_dumps b <-> a = b) /\
  json_dumps a <> EmptyString.
Proof.
  split; [|discriminate]. split; [|by intros ->].
  unfold json_dumps. intros H.
  do 5 apply append_inj_l in H. apply append_inj_r in H.
  by apply decimal_inj.
Qed.

(** ** Loading the state *)

Section LoadExtra.

Variable json_load : string -> result json.

(** X17: a restart after a clean stop resumes at the same checkpoint.
    When [run] has ended with a successful final save and the decoder
    gives back that record, [_load_state] on the file it left yields the
    checkpoint the run had reached, without asking the chain for its
    height; the cache of the new process starts empty. *)
Theorem restart_resumes_at_saved_checkpoint (cfg : Config)
    (envs : list CycleEnv) (w : World) (lenv : LoadEnv) :
  let w1 := exec (run cfg envs DiskOk) w in
  json_load (json_dumps (last_processed_block w1))
  = Ok (JDict [("last_processed_block", JInt (last_processed_block w1))]) ->
  open_fails lenv = false ->
  _load_state json_load lenv (initial_world (state_file w1))
  = (Ok (LoadedBlock (last_processed_block w1)),
     mkWorld [InfoStateLoaded (last_processed_block w1)] ∅
       (last_processed_block w1) (state_file w1)).
Proof.
  intros w1 Hdec Hopen.
  pose proof (run_clean_stop cfg envs w) as Hfile. fold w1 in Hfile.
  unfold _load_state. simpl. rewrite Hfile.
  unfold try_except, bind, lift. rewrite Hopen, Hdec. reflexivity.
Qed.


(** X19: with no state file, an exception of the height query that the
    clause [except (json.JSONDecodeError, IOError)] names (an [OSError]
    such as the builtin [ConnectionError], or a [JSONDecodeError]) is
    caught by that clause, which was meant for the file: the error is
    logged and the height is asked for a second time; the seed is the
    second answer minus one, or the second exception leaves
    [_load_state].  An exception the clause does not name leaves
    [_load_state] at once. *)
Theorem load_retries_height_query (env : LoadEnv) (w : World) (e : exn) :
  state_file w = None ->
  heights env 0 = Raise e ->
  (load_clause_catches e = true ->
   forall h, heights env 1 = Ok h ->
     _load_state json_load env w
     = (Ok (SeededBlock (h - 1)),
        mkWorld (log w ++ [WarnStateFileNotFound; ErrorLoadingState e])
          (processed_events w) (h - 1) None)) /\
  (load_clause_catches e = true ->
   forall e2, heights env 1 = Raise e2 ->
     _load_state json_load env w
     = (Raise e2, emit [WarnStateFileNotFound; ErrorLoadingState e] w)) /\
  (load_clause_catches e = false ->
   _load_state json_load env w = (Raise e, emit [WarnStateFileNotFound] w)).
Proof.
  intros Hfile Hq. unfold _load_state. rewrite Hfile.
  unfold try_except, bind, seed, lift. simpl. rewrite Hq. simpl.
  unfold load_handler, bind, seed, lift, logger, set_last_processed_block,
    ret, raise, emit.
  split; [|split].
  - intros He h Hh. destruct e; try discriminate; simpl;
      rewrite Hh; simpl; rewrite <- ?app_assoc, ?Hfile; reflexivity.
  - intros He e2 Hh. destruct e; try discriminate; simpl;
      rewrite Hh; simpl; rewrite <- ?app_assoc; reflexivity.
  - intros He. destruct e; try discriminate; reflexivity.
Qed.

End LoadExtra.

Lemma restart_resumes_at_saved_checkpoint_witness :
  fst (_load_state decode_record
         (mkLoadEnv false (fun _ => Raise ConnectionError))
         (initial_world
            (state_file (exec (run default_config [quiet_env] DiskOk)
                           (world_at 200)))))
  = Ok (LoadedBlock 250).
Proof.
  exact (f_equal fst
           (restart_resumes_at_saved_checkpoint decode_record default_config
              [quiet_env] (world_at 200)
              (mkLoadEnv false (fun _ => Raise ConnectionError))
              eq_refl eq_refl)).
Defined.


Lemma load_retries_height_query_witness :
  _load_state decode_record
    (mkLoadEnv false
       (fun k => match k with O => Raise ConnectionError | _ => Ok 1000 end))
    (initial_world None)
  = (Ok (SeededBlock 999),
     mkWorld [WarnStateFileNotFound; ErrorLoadingState ConnectionError] ∅
       999 None).
Proof.
  exact (proj1 (load_retries_height_query decode_record
                  (mkLoadEnv false
                     (fun k => match k with
                               | O => Raise ConnectionError
                               | _ => Ok 1000
                               end))
                  (initial_world None) ConnectionError eq_refl eq_refl)
           eq_refl 1000 eq_refl).
Defined.

End ListenerExtra.


(** * Properties of the connector *)

Module ConnectorExtra.
Import Bridge BridgeViews ListenerViews Connector BridgeFacts ListenerExtra.
Local Open Scope list_scope.

(** X20: [connect] is all or nothing.  It returns exactly when the
    [Web3] object could be built and the endpoint answers, and then the
    connector holds that object; otherwise it raises (the builder's
    exception, or [ConnectionError] for an endpoint that does not
    answer), logs the error and leaves the connector without a [Web3]
    object.  The url and the chain id never change. *)
Theorem connect_all_or_nothing (env : ConnectEnv) (c : BlockchainConnector) :
  let r := fst (connect env c) in
  let c' := snd (connect env c) in
  (r = Ok tt <-> (exists u, provider env = Ok u) /\ is_connected env = true) /\
  (r = Ok tt -> web3 c' = Some (mkWeb3 (rpc_url c))) /\
  (forall e, r = Raise e ->
     web3 c' = None /\
     connector_log c' = connector_log c ++ [ErrorConnecting (rpc_url c) e]) /\
  (forall u, provider env = Ok u -> is_connected env = false ->
     r = Raise ConnectionError) /\
  (forall e, provider env = Raise e -> r = Raise e) /\
  rpc_url c' = rpc_url c /\ chain_id c' = chain_id c.
Proof.
  unfold connect, connect_failed.
  destruct (provider env) as [[]|e]; destruct (is_connected env); simpl.
  - split; [split; [eauto | done]|]. split; [done|].
    split; [discriminate|]. split; [discriminate|].
    split; [discriminate | done].
  - split; [split; [discriminate | by intros [_ ?]]|].
    split; [discriminate|]. split; [by intros ? [= <-]|].
    split; [done|]. split; [discriminate | done].
  - split; [split; [discriminate | by intros [[? ?] _]]|].
    split; [discriminate|]. split; [by intros ? [= <-]|].
    split; [discriminate|]. split; [by intros ? [= <-] | done].
  - split; [split; [discriminate | by intros [[? ?] _]]|].
    split; [discriminate|]. split; [by intros ? [= <-]|].
    split; [discriminate|]. split; [by intros ? [= <-] | done].
Qed.

(** X21: [get_latest_block_number] never reads a height through a
    missing or dead connection.  With a [Web3] object whose endpoint
    answers it reads the height and touches nothing; otherwise it logs a
    warning and reconnects first, and if that fails it raises the
    exception of [connect] with no [Web3] object left.  Whenever it
    returns a height the connector holds a [Web3] object. *)
Theorem height_needs_a_live_connection (env : HeightEnv)
    (c : BlockchainConnector) :
  let r := fst (get_latest_block_number env c) in
  let c' := snd (get_latest_block_number env c) in
  (web3 c <> None -> still_connected env = true ->
   get_latest_block_number env c = (eth_block_number env, c)) /\
  (web3 c = None \/ still_connected env = false ->
   forall e, fst (connect (reconnect env) c) = Raise e ->
     r = Raise e /\ web3 c' = None) /\
  (web3 c = None \/ still_connected env = false ->
   fst (connect (reconnect env) c) = Ok tt ->
   r = eth_block_number env /\ web3 c' = Some (mkWeb3 (rpc_url c))) /\
  (forall h, r = Ok h -> web3 c' <> None /\ eth_block_number env = Ok h).
Proof.
  unfold get_latest_block_number, connect, connect_failed.
  destruct (web3 c) as [obj|] eqn:Hweb; destruct (still_connected env) eqn:Hs;
    simpl.
  - (* a live connection *)
    split; [done|]. split; [by intros [|]|]. split; [by intros [|]|].
    intros h Hh. by rewrite Hweb.
  - (* the endpoint does not answer any more *)
    split; [discriminate|].
    destruct (provider (reconnect env)) as [[]|e0];
      destruct (is_connected (reconnect env)); simpl;
      (split; [intros _ e He; try discriminate; by injection He as <-|]);
      (split; [intros _ He; try discriminate; done|]);
      intros h Hh; try discriminate; done.
  - (* no object, the guard does not ask *)
    split; [done|].
    destruct (provider (reconnect env)) as [[]|e0];
      destruct (is_connected (reconnect env)); simpl;
      (split; [intros _ e He; try discriminate; by injection He as <-|]);
      (split; [intros _ He; try discriminate; done|]);
      intros h Hh; try discriminate; done.
  - split; [done|].
    destruct (provider (reconnect env)) as [[]|e0];
      destruct (is_connected (reconnect env)); simpl;
      (split; [intros _ e He; try discriminate; by injection He as <-|]);
      (split; [intros _ He; try discriminate; done|]);
      intros h Hh; try discriminate; done.
Qed.

(** X22: a source connector that has lost its endpoint and cannot
    reconnect stalls the listener without harming it.  The cycle returns,
    asks for no window, dispatches nothing, and leaves the checkpoint,
    the cache and the state file as they were; its own record is the one
    of the clause that caught the exception of [connect]. *)
Theorem offline_cycle_stalls (cfg : Config) (henv : HeightEnv)
    (c : BlockchainConnector)
    (entries : Z -> Z -> result (list Event)) (disk : Z -> disk_fault)
    (w : World) (e : exn) :
  (web3 c = None \/ still_connected henv = false) ->
  fst (connect (reconnect henv) c) = Raise e ->
  let env := cycle_env_of henv c entries disk in
  let w' := exec (_run_cycle cfg env) w in
  fst (_run_cycle cfg env w) = Ok tt /\
  last_processed_block w' = last_processed_block w /\
  processed_events w' = processed_events w /\
  state_file w' = state_file w /\
  fetched (log w') = fetched (log w) /\
  dispatched (log w') = dispatched (log w) /\
  In (cycle_error e) (log w').
Proof.
  intros Hdown Hfail env w'.
  assert (Hh : block_number env = Raise e).
  { unfold env, cycle_env_of, get_latest_block_number. simpl.
    assert (Hguard : match web3 c with
                     | None => true
                     | Some _ => negb (still_connected henv)
                     end = true).
    { destruct Hdown as [-> | ->]; [reflexivity | by destruct (web3 c)]. }
    rewrite Hguard. revert Hfail. unfold connect, connect_failed. simpl.
    destruct (provider (reconnect henv)) as [[]|e0];
      destruct (is_connected (reconnect henv)); simpl;
      intros Hfail; try discriminate; by injection Hfail as <-. }
  pose proof (run_cycle_idle cfg env w) as Hc. rewrite Hh in Hc.
  unfold w', exec. rewrite Hc. simpl.
  split; [reflexivity|]. split; [reflexivity|]. split; [reflexivity|].
  split; [reflexivity|]. rewrite fetched_app, dispatched_app.
  split; [|split]; [| |apply in_or_app; right; by left];
    unfold cycle_error; destruct (is_ConnectionError e); simpl;
    by rewrite app_nil_r.
Qed.

Lemma offline_cycle_stalls_witness :
  last_processed_block
    (exec (_run_cycle default_config
             (cycle_env_of (mkHeightEnv false dead_endpoint (Ok 250))
                (mkConnector "rpc" SOURCE_CHAIN_ID None [])
                (fun _ _ => Ok []) (fun _ => DiskOk)))
       (world_at 200))
  = last_processed_block (world_at 200).
Proof.
  exact (proj1 (proj2
           (offline_cycle_stalls default_config
              (mkHeightEnv false dead_endpoint (Ok 250))
              (mkConnector "rpc" SOURCE_CHAIN_ID None [])
              (fun _ _ => Ok []) (fun _ => DiskOk) (world_at 200)
              ConnectionError (or_introl eq_refl) eq_refl))).
Defined.

(** X24: a connector that was constructed is connected.  When
    [__init__] returns, the connector holds the [Web3] object of the
    given url, keeps the url and the chain id it was given, and has
    logged the one record of the successful connection; while its
    endpoint answers, a height query reads the height without
    reconnecting. *)
Theorem constructed_connector_is_connected (env : ConnectEnv)
    (url : string) (chain : Z) (henv : HeightEnv) :
  fst (new_connector env url chain) = Ok tt ->
  let c := snd (new_connector env url chain) in
  web3 c = Some (mkWeb3 url) /\ rpc_url c = url /\ chain_id c = chain /\
  connector_log c = [InfoConnected chain url] /\
  (still_connected henv = true ->
   get_latest_block_number henv c = (eth_block_number henv, c)).
Proof.
  unfold new_connector, connect, connect_failed. simpl.
  destruct (provider env) as [[]|e]; [|discriminate].
  destruct (is_connected env); simpl; [|discriminate].
  intros _. do 4 (split; [reflexivity|]).
  intros Hs. unfold get_latest_block_number. simpl. by rewrite Hs.
Qed.

Lemma constructed_connector_is_connected_witness :
  web3 (snd (new_connector (mkConnectEnv (Ok tt) true) "rpc" SOURCE_CHAIN_ID))
  = Some (mkWeb3 "rpc").
Proof.
  exact (proj1 (constructed_connector_is_connected
                  (mkConnectEnv (Ok tt) true) "rpc" SOURCE_CHAIN_ID
                  (mkHeightEnv true dead_endpoint (Ok 250)) eq_refl)).
Defined.

Section ContractExtra.

Variable to_checksum_address : string -> result string.

(** X23: a contract object is only made through a connector that holds
    a [Web3] object.  After a [connect] that raised, and after a height
    query that raised in its reconnection, [get_contract_instance]
    raises [ConnectionError] whatever the address; after a [connect]
    that returned it gives the contract at the checksummed address, or
    the exception of the checksum for text that is no address. *)
Theorem contract_needs_a_connection (env : ConnectEnv) (henv : HeightEnv)
    (c : BlockchainConnector) (address : string) :
  (forall e, fst (connect env c) = Raise e ->
     get_contract_instance to_checksum_address (snd (connect env c)) address
     = Raise ConnectionError) /\
  (forall e,
     (web3 c = None \/ still_connected henv = false) ->
     fst (connect (reconnect henv) c) = Raise e ->
     get_contract_instance to_checksum_address
       (snd (get_latest_block_number henv c)) address
     = Raise ConnectionError) /\
  (fst (connect env c) = Ok tt ->
   get_contract_instance to_checksum_address (snd (connect env c)) address
   = match to_checksum_address address with
     | Ok checksum_address => Ok (mkContract checksum_address)
     | Raise e => Raise e
     end).
Proof.
  split; [|split].
  - intros e. unfold connect, connect_failed.
    destruct (provider env) as [[]|e0]; destruct (is_connected env); simpl;
      intros H; try discriminate; reflexivity.
  - intros e Hdown. unfold get_latest_block_number.
    assert (Hguard : match web3 c with
                     | None => true
                     | Some _ => negb (still_connected henv)
                     end = true).
    { destruct Hdown as [-> | ->]; [reflexivity | by destruct (web3 c)]. }
    rewrite Hguard. unfold connect, connect_failed. simpl.
    destruct (provider (reconnect henv)) as [[]|e0];
      destruct (is_connected (reconnect henv)); simpl;
      intros H; try discriminate; reflexivity.
  - unfold connect, connect_failed.
    destruct (provider env) as [[]|e0]; destruct (is_connected env); simpl;
      intros H; try discriminate; reflexivity.
Qed.

End ContractExtra.

End ConnectorExtra.
